(** * Sprout core: registration store, thread dispatcher, response consolidation

    A shallow embedding of
    - [sprout/regstore.cpp]  (RegStore: get_aor_data, set_aor_data,
      expire_bindings, serialize_aor, deserialize_aor, AoR::get_binding),
    - [src/thread_dispatcher.cpp] (worker_thread, threads_on_rx_msg,
      init_thread_dispatcher),
    - the response consolidation rule of the service transaction context
      declared in [include/appserver.h],
    together with the properties the specification states about them. *)

From Stdlib Require Import ZArith Ascii String List Lia Bool.
From stdpp Require Import base option list gmap strings sorting fin_maps.

Local Open Scope Z_scope.

(* ===================================================================== *)
(** * 1. Machine integers and their object representation                *)
(* ===================================================================== *)

(** [int] is a 32-bit two's complement integer.  Values are carried as [Z];
    conversions into [int] wrap around. *)
Module Int.

Definition min_signed : Z := - 2 ^ 31.
Definition max_signed : Z := 2 ^ 31 - 1.
Definition modulus : Z := 2 ^ 32.

Definition in_range (z : Z) : Prop := min_signed <= z <= max_signed.
Definition in_rangeb (z : Z) : bool := (min_signed <=? z) && (z <=? max_signed).

(** Conversion of an arbitrary integer into [int] (as for [size_t] to
    [int], or the result of an [int] operation). *)
Definition wrap (z : Z) : Z := (z + 2 ^ 31) mod modulus - 2 ^ 31.

Definition sub (a b : Z) : Z := wrap (a - b).

(** The [i]-th byte of the object representation (host order: least
    significant byte first). *)
Definition byte_at (z : Z) (i : Z) : ascii :=
  ascii_of_N (Z.to_N ((z / 2 ^ (8 * i)) mod 256)).

Definition to_bytes (z : Z) : list ascii :=
  [byte_at z 0; byte_at z 1; byte_at z 2; byte_at z 3].

Definition byte_val (c : ascii) : Z := Z.of_N (N_of_ascii c).

Fixpoint unsigned_of_bytes (bs : list ascii) : Z :=
  match bs with
  | [] => 0
  | c :: bs' => byte_val c + 256 * unsigned_of_bytes bs'
  end.

Definition of_bytes (bs : list ascii) : Z := wrap (unsigned_of_bytes bs).

End Int.

(* ===================================================================== *)
(** * 2. Byte strings and the string streams                             *)
(* ===================================================================== *)

Definition NUL : ascii := ascii_of_N 0.

Fixpoint string_of_bytes (bs : list ascii) : string :=
  match bs with
  | [] => EmptyString
  | c :: bs' => String c (string_of_bytes bs')
  end.

(** [oss.write((const char * )&x, sizeof(int))] *)
Definition write_int (x : Z) : string := string_of_bytes (Int.to_bytes x).

(** [oss << s << '\0'] *)
Definition write_cstr (s : string) : string := s +:+ String NUL EmptyString.

(** An input string stream: the characters not yet consumed and the two
    state bits the code can run into ([badbit] is never set by a string
    buffer). *)
Record istringstream : Type := mk_iss {
  iss_rest : string;
  iss_eof  : bool;
  iss_fail : bool
}.

Definition iss_open (s : string) : istringstream :=
  {| iss_rest := s; iss_eof := false; iss_fail := false |}.

Definition iss_good (st : istringstream) : bool :=
  negb (iss_eof st) && negb (iss_fail st).

(** What the sentry of an input function leaves when the stream is not
    good: [failbit] is set and nothing is extracted. *)
Definition iss_sentry_failed (st : istringstream) : istringstream :=
  {| iss_rest := iss_rest st; iss_eof := iss_eof st; iss_fail := true |}.

(** Up to [n] characters from the front of [s]. *)
Fixpoint take_bytes (n : nat) (s : string) : list ascii * string :=
  match n, s with
  | S n', String c s' =>
      let '(bs, r) := take_bytes n' s' in (c :: bs, r)
  | _, _ => ([], s)
  end.

(** [iss.read(buf, n)]: the characters stored into the buffer and the
    stream afterwards.  Fewer than [n] characters are stored when the
    stream runs out, and then [eofbit] and [failbit] are set. *)
Definition iss_read (n : nat) (st : istringstream) : list ascii * istringstream :=
  if iss_good st then
    let '(bs, r) := take_bytes n (iss_rest st) in
    if (length bs <? n)%nat
    then (bs, {| iss_rest := r; iss_eof := true; iss_fail := true |})
    else (bs, {| iss_rest := r; iss_eof := false; iss_fail := false |})
  else ([], iss_sentry_failed st).

(** [iss.read((char * )&x, sizeof(int))] where [x] currently holds [old]:
    the bytes read overwrite the leading bytes of the object, the others
    keep their value. *)
Definition read_int (st : istringstream) (old : Z) : Z * istringstream :=
  let '(bs, st') := iss_read 4 st in
  (Int.of_bytes (bs ++ drop (length bs) (Int.to_bytes old)), st').

(** The same read into an [int] that was declared without an initializer:
    unless all four bytes arrive, the variable stays indeterminate
    ([None]). *)
Definition read_uninit_int (st : istringstream) : option Z * istringstream :=
  let '(bs, st') := iss_read 4 st in
  (if (length bs =? 4)%nat then Some (Int.of_bytes bs) else None, st').

(** Scan for the delimiter: the characters before it and those after it. *)
Fixpoint scan_delim (delim : ascii) (s : string) : option (string * string) :=
  match s with
  | EmptyString => None
  | String c s' =>
      if Ascii.eqb c delim then Some (EmptyString, s')
      else match scan_delim delim s' with
           | Some (l, r) => Some (String c l, r)
           | None => None
           end
  end.

(** [getline(iss, str, '\0')] where [str] currently holds [old].  A stream
    that is not good leaves [str] alone.  Otherwise [str] is erased and
    filled up to the delimiter, which is extracted and dropped; running
    into the end sets [eofbit], and [failbit] as well when nothing at all
    was extracted. *)
Definition getline (st : istringstream) (old : string) : string * istringstream :=
  if iss_good st then
    match scan_delim NUL (iss_rest st) with
    | Some (l, r) => (l, {| iss_rest := r; iss_eof := false; iss_fail := false |})
    | None =>
        (iss_rest st,
         {| iss_rest := EmptyString; iss_eof := true;
            iss_fail := match iss_rest st with EmptyString => true | _ => false end |})
    end
  else (old, iss_sentry_failed st).

(* ===================================================================== *)
(** * 3. Outcomes of code that can leave by an exception                 *)
(* ===================================================================== *)

(** A call either returns, or leaves through an exception thrown by the
    allocator ([std::list::resize] asked for a size no machine can hold),
    or evaluates a variable whose value is indeterminate. *)
Inductive outcome (A : Type) : Type :=
| Returned (a : A)
| Throws
| Indeterminate.
Arguments Returned {A} a.
Arguments Throws {A}.
Arguments Indeterminate {A}.

Global Instance outcome_ret : MRet outcome := fun A a => Returned a.
Global Instance outcome_bind : MBind outcome := fun A B f m =>
  match m with
  | Returned a => f a
  | Throws => Throws
  | Indeterminate => Indeterminate
  end.

(** Evaluating an [int] that may not have been given a value. *)
Definition use_int (x : option Z) : outcome Z :=
  match x with
  | Some z => Returned z
  | None => Indeterminate
  end.

(** [l.resize(n)] for an [int] argument [n]: the conversion to [size_type]
    turns a negative [n] into a size beyond any allocation; otherwise the
    list is cut to its first [n] elements or extended with
    default-constructed ones. *)
Definition list_resize {A : Type} (n : Z) (dflt : A) (l : list A) : outcome (list A) :=
  if n <? 0 then Throws else Returned (resize (Z.to_nat n) dflt l).

(* ===================================================================== *)
(** * 4. The registration store (regstore.cpp)                           *)
(* ===================================================================== *)

Module RegStore.

(** Modelled from the spec: the declaration of [RegStore::AoR::Binding]
    (regstore.h) is not among the sources; its members are the ones
    [serialize_aor] writes, with the types the specification's data model
    gives them. *)
Record Binding : Type := mk_Binding {
  _uri : string;
  _cid : string;
  _cseq : Z;
  _expires : Z;
  _priority : Z;
  _params : list (string * string);
  _path_headers : list string
}.

(** Modelled from the spec: what [new Binding] yields.  Following the
    comment on [get_binding] the created binding is completely empty:
    empty strings, no parameters, no path headers, numeric members 0. *)
Definition Binding_new : Binding :=
  {| _uri := ""; _cid := ""; _cseq := 0; _expires := 0; _priority := 0;
     _params := []; _path_headers := [] |}.

(** [AoR], with the two members its constructor initialises: the
    bindings, used by the code as a [std::map] from binding identifier to
    binding ([find], [insert], [erase], iteration over [first] and
    [second]), and the CAS token. *)
Record AoR : Type := mk_AoR {
  _bindings : gmap string Binding;
  _cas : Z
}.

(** [AoR::AoR()] *)
Definition AoR_new : AoR := {| _bindings := ∅; _cas := 0 |}.

(** [aor_data->_cas = cas] *)
Definition set_cas (a : AoR) (cas : Z) : AoR :=
  {| _bindings := _bindings a; _cas := cas |}.

(** Iteration over a [std::map<std::string, _>] visits the entries in
    increasing key order, keys compared as byte strings. *)
Definition key_le (x y : string * Binding) : Prop := String.le x.1 y.1.

Global Instance key_le_dec : RelDecision key_le.
Proof. intros x y. unfold key_le. apply _. Defined.

(** The entries of the map in the order an iterator visits them. *)
Definition in_order (m : gmap string Binding) : list (string * Binding) :=
  merge_sort key_le (map_to_list m).

(** [AoR::get_binding]: the binding found under [binding_id], or a new
    empty one inserted under it.  The pointer the code returns aliases
    the entry of the map; the model returns the binding's value and the
    updated AoR, and callers that write through the pointer store the
    changed binding back under [binding_id]. *)
Definition get_binding (a : AoR) (binding_id : string) : Binding * AoR :=
  match _bindings a !! binding_id with
  | Some b => (b, a)
  | None =>
      (Binding_new,
       {| _bindings := <[binding_id := Binding_new]> (_bindings a);
          _cas := _cas a |})
  end.

(** Writing through a pointer obtained from [get_binding]. *)
Definition store_binding (a : AoR) (binding_id : string) (b : Binding) : AoR :=
  {| _bindings := <[binding_id := b]> (_bindings a); _cas := _cas a |}.

(** Storing the bindings of a list one after the other, each under its
    identifier. *)
Definition store_all (a : AoR) (l : list (string * Binding)) : AoR :=
  foldl (fun acc kb => store_binding acc kb.1 kb.2) a l.

(** ** expire_bindings *)

(** One turn of the loop over the bindings: [acc] holds [max_expires] and
    the map as modified so far. *)
Definition expire_step (now : Z) (acc : Z * gmap string Binding)
    (kb : string * Binding) : Z * gmap string Binding :=
  let '(max_expires, m) := acc in
  if _expires kb.2 <=? now then (max_expires, delete kb.1 m)
  else ((if _expires kb.2 >? max_expires then _expires kb.2 else max_expires), m).

(** [expire_bindings]: the value returned and the AoR as the loop leaves
    it. *)
Definition expire_bindings (aor_data : AoR) (now : Z) : Z * AoR :=
  let '(max_expires, m) :=
    foldl (expire_step now) (now, _bindings aor_data)
          (in_order (_bindings aor_data)) in
  (max_expires, {| _bindings := m; _cas := _cas aor_data |}).

(** ** serialize_aor *)

(** [oss << i->first << '\0' << i->second << '\0'] *)
Definition serialize_param (p : string * string) : string :=
  write_cstr p.1 +:+ write_cstr p.2.

(** The loop over [_params]. *)
Fixpoint serialize_params (ps : list (string * string)) : string :=
  match ps with
  | [] => ""
  | p :: ps' => serialize_param p +:+ serialize_params ps'
  end.

(** The loop over [_path_headers]. *)
Fixpoint serialize_paths (hs : list string) : string :=
  match hs with
  | [] => ""
  | h :: hs' => write_cstr h +:+ serialize_paths hs'
  end.

(** [int n = c.size()] *)
Definition int_of_size (n : nat) : Z := Int.wrap (Z.of_nat n).

(** What one turn of the loop over the bindings writes. *)
Definition serialize_binding (kb : string * Binding) : string :=
  let b := kb.2 in
  write_cstr kb.1
  +:+ write_cstr (_uri b)
  +:+ write_cstr (_cid b)
  +:+ write_int (_cseq b)
  +:+ write_int (_expires b)
  +:+ write_int (_priority b)
  +:+ write_int (int_of_size (length (_params b)))
  +:+ serialize_params (_params b)
  +:+ write_int (int_of_size (length (_path_headers b)))
  +:+ serialize_paths (_path_headers b).

(** The loop over the bindings. *)
Fixpoint serialize_bindings (l : list (string * Binding)) : string :=
  match l with
  | [] => ""
  | kb :: l' => serialize_binding kb +:+ serialize_bindings l'
  end.

(** [serialize_aor]: the number of bindings, then the bindings in the
    order of the map. *)
Definition serialize_aor (aor_data : AoR) : string :=
  write_int (int_of_size (size (_bindings aor_data)))
  +:+ serialize_bindings (in_order (_bindings aor_data)).

(** ** deserialize_aor *)

(** The loop over the (resized) parameter list: each element's two
    strings are read in place. *)
Fixpoint read_params (ps : list (string * string)) (iss : istringstream)
    : list (string * string) * istringstream :=
  match ps with
  | [] => ([], iss)
  | p :: ps' =>
      let '(first, iss) := getline iss p.1 in
      let '(second, iss) := getline iss p.2 in
      let '(ps'', iss) := read_params ps' iss in
      ((first, second) :: ps'', iss)
  end.

(** The loop over the (resized) list of path headers. *)
Fixpoint read_paths (hs : list string) (iss : istringstream)
    : list string * istringstream :=
  match hs with
  | [] => ([], iss)
  | h :: hs' =>
      let '(h', iss) := getline iss h in
      let '(hs'', iss) := read_paths hs' iss in
      (h' :: hs'', iss)
  end.

(** The body of the loop over the bindings. *)
Definition deserialize_binding (aor_data : AoR) (iss : istringstream)
    : outcome (AoR * istringstream) :=
  let '(binding_id, iss) := getline iss "" in
  let '(b, aor_data) := get_binding aor_data binding_id in
  let '(uri, iss) := getline iss (_uri b) in
  let '(cid, iss) := getline iss (_cid b) in
  let '(cseq, iss) := read_int iss (_cseq b) in
  let '(expires, iss) := read_int iss (_expires b) in
  let '(priority, iss) := read_int iss (_priority b) in
  let '(num_params, iss) := read_uninit_int iss in
  n ← use_int num_params;
  params ← list_resize n ("", "") (_params b);
  let '(params, iss) := read_params params iss in
  let '(num_paths, iss) := read_int iss 0 in
  paths ← list_resize num_paths "" (_path_headers b);
  let '(paths, iss) := read_paths paths iss in
  Returned
    (store_binding aor_data binding_id
       {| _uri := uri; _cid := cid; _cseq := cseq; _expires := expires;
          _priority := priority; _params := params;
          _path_headers := paths |},
     iss).

(** [for (int ii = 0; ii < num_bindings; ++ii)]: [count] turns remain. *)
Fixpoint deserialize_loop (count : nat) (aor_data : AoR) (iss : istringstream)
    : outcome (AoR * istringstream) :=
  match count with
  | O => Returned (aor_data, iss)
  | S count' =>
      '(aor_data, iss) ← deserialize_binding aor_data iss;
      deserialize_loop count' aor_data iss
  end.

(** The deserializer together with the stream it leaves behind. *)
Definition deserialize_stream (s : string) : outcome (AoR * istringstream) :=
  let iss := iss_open s in
  let aor_data := AoR_new in
  let '(num_bindings, iss) := read_uninit_int iss in
  n ← use_int num_bindings;
  deserialize_loop (Z.to_nat n) aor_data iss.

(** [deserialize_aor]: the AoR built is returned whatever the state of
    the stream. *)
Definition deserialize_aor (s : string) : outcome AoR :=
  '(aor_data, _) ← deserialize_stream s; Returned aor_data.

(** ** The data store behind the registration store *)

(** Modelled from the spec: the [Store] interface (store.h) is not among
    the sources.  [get] yields a status and, when it is [OK], the value
    and its CAS; [set] takes table, key, value, CAS and expiry and yields
    [OK], [CONTENTION] or [ERROR]. *)
Inductive Status : Type := OK | NOT_FOUND | CONTENTION | ERROR.

(** [status == Store::Status::...] *)
Definition Status_eqb (x y : Status) : bool :=
  match x, y with
  | OK, OK | NOT_FOUND, NOT_FOUND | CONTENTION, CONTENTION | ERROR, ERROR => true
  | _, _ => false
  end.

(** Modelled from the spec: the two operations of the interface.  The
    store is reached through a pointer to an abstract class; [St] is the
    state of whatever implements it. *)
Class Store (St : Type) : Type := {
  get_data : string -> string -> St -> (Status * string * Z) * St;
  set_data : string -> string -> string -> Z -> Z -> St -> Status * St
}.

(** ** get_aor_data *)

(** A null pointer is [None]. *)
Definition get_aor_data {St : Type} `{!Store St} (aor_id : string) (st : St)
    : outcome (option AoR) * St :=
  let '(status, data, cas, st') := get_data "reg" aor_id st in
  if Status_eqb status OK then
    (aor_data ← deserialize_aor data; Returned (Some (set_cas aor_data cas)), st')
  else if Status_eqb status NOT_FOUND then
    (Returned (Some AoR_new), st')
  else
    (Returned None, st').

(** ** set_aor_data *)

(** [now] is the value [time(NULL)] gave.  The result is the truth value
    returned, the AoR as [expire_bindings] left it, and the store. *)
Definition set_aor_data {St : Type} `{!Store St} (aor_id : string)
    (aor_data : AoR) (now : Z) (st : St) : bool * AoR * St :=
  let '(max_expires, aor_data) := expire_bindings aor_data now in
  let data := serialize_aor aor_data in
  let '(status, st') :=
    set_data "reg" aor_id data (_cas aor_data) (Int.sub max_expires now) st in
  (Status_eqb status OK, aor_data, st').

(** ** Values the record format can carry *)

(** A string without a NUL character. *)
Fixpoint cstring_ok (s : string) : bool :=
  match s with
  | EmptyString => true
  | String c s' => negb (Ascii.eqb c NUL) && cstring_ok s'
  end.

(** A container size that fits an [int]. *)
Definition size_ok (n : nat) : bool := Z.of_nat n <=? Int.max_signed.

(** A parameter whose name and value hold no NUL character. *)
Definition param_ok (p : string * string) : bool :=
  cstring_ok p.1 && cstring_ok p.2.

(** A binding the record format can carry: no NUL character in its
    identifier or any of its strings, numbers that are [int]s, list sizes
    that fit an [int]. *)
Definition binding_ok (kb : string * Binding) : bool :=
  cstring_ok kb.1 && cstring_ok (_uri kb.2) && cstring_ok (_cid kb.2)
  && Int.in_rangeb (_cseq kb.2) && Int.in_rangeb (_expires kb.2)
  && Int.in_rangeb (_priority kb.2)
  && size_ok (length (_params kb.2)) && forallb param_ok (_params kb.2)
  && size_ok (length (_path_headers kb.2))
  && forallb cstring_ok (_path_headers kb.2).

(** An AoR the record format can carry. *)
Definition aor_ok (a : AoR) : bool :=
  size_ok (size (_bindings a)) && forallb binding_ok (map_to_list (_bindings a)).

(** Every expiry time is a value of type [int]. *)
Definition expires_ok (a : AoR) : bool :=
  forallb (fun kb => Int.in_rangeb (_expires kb.2)) (map_to_list (_bindings a)).

(** [s] without its last character. *)
Fixpoint chop (s : string) : string :=
  match s with
  | EmptyString => EmptyString
  | String c EmptyString => EmptyString
  | String c s' => String c (chop s')
  end.

(** [p] is a record cut short: a prefix of [s] other than [s]. *)
Definition truncation_of (p s : string) : Prop :=
  String.prefix p s = true /\ p <> s.

(** ** A store held in memory *)

(** Modelled from the spec: a store with the behaviour of the data store
    interface: a [set] with CAS 0 is an unconditional insert, any other
    CAS must match the stored version; every successful [set] gives the
    entry a new version.  It never reports [ERROR]. *)
Record MemStore : Type := mk_MemStore {
  mem_entries : gmap (string * string) (string * Z * Z)
}.

(** Modelled from the spec: [get] of the store held in memory. *)
Definition MemStore_get (table key : string) (st : MemStore)
    : (Status * string * Z) * MemStore :=
  match mem_entries st !! (table, key) with
  | Some (data, cas, _) => (OK, data, cas, st)
  | None => (NOT_FOUND, "", 0, st)
  end.

(** Modelled from the spec: [set] of the store held in memory. *)
Definition MemStore_set (table key data : string) (cas expiry : Z)
    (st : MemStore) : Status * MemStore :=
  let stored := match mem_entries st !! (table, key) with
                | Some (_, c, _) => c
                | None => 0
                end in
  if (cas =? 0) || (cas =? stored) then
    (OK, {| mem_entries := <[(table, key) := (data, stored + 1, expiry)]> (mem_entries st) |})
  else (CONTENTION, st).

(** Modelled from the spec: the store held in memory as a [Store]. *)
Global Instance MemStore_Store : Store MemStore :=
  {| get_data := MemStore_get; set_data := MemStore_set |}.

(** Modelled from the spec: a store that cannot be reached, every call
    reports [ERROR]. *)
Inductive DownStore : Type := store_down.

(** Modelled from the spec: both operations of the unreachable store. *)
Global Instance DownStore_Store : Store DownStore :=
  {| get_data := fun _ _ st => (ERROR, "", 0, st);
     set_data := fun _ _ _ _ _ st => (ERROR, st) |}.

(** ** remove_binding *)

(** [AoR::remove_binding]: the binding under [binding_id] is deleted and
    its entry erased; without such a binding nothing is done. *)
Definition remove_binding (a : AoR) (binding_id : string) : AoR :=
  match _bindings a !! binding_id with
  | Some _ => {| _bindings := delete binding_id (_bindings a); _cas := _cas a |}
  | None => a
  end.

End RegStore.

(* ===================================================================== *)
(** * 4b. AoR objects and the bindings they own                          *)
(* ===================================================================== *)

(** The copy constructor, the assignment operator, [clear] and the
    destructor of [AoR] are about which [Binding] objects an [AoR] owns.
    Here the map of an AoR holds pointers, the [Binding] objects live in
    memory cells, and the AoR objects themselves have addresses, so that
    [this != &other] can be asked. *)
Module AoRObjects.
Import RegStore.

(** An AoR object: its map from binding identifier to [Binding*], and its
    CAS. *)
Record AoRobj : Type := mk_AoRobj {
  obj_bindings : gmap string nat;
  obj_cas : Z
}.

(** The memory: the live [Binding] objects by address and the AoR objects
    by address. *)
Record memory : Type := mk_memory {
  cells : gmap nat Binding;
  objs : gmap nat AoRobj
}.

(** The entries of a map of pointers in iteration order (increasing
    key). *)
Definition ptrs_in_order (m : gmap string nat) : list (string * nat) :=
  merge_sort (fun x y => String.le x.1 y.1) (map_to_list m).

(** [_bindings.insert(std::make_pair(k, p))]: an entry already there is
    kept. *)
Definition map_insert_absent (k : string) (p : nat) (m : gmap string nat)
    : gmap string nat :=
  match m !! k with
  | Some _ => m
  | None => <[k := p]> m
  end.

(** The loop of [clear] (and of the destructor): [delete i->second] for
    every entry.  Deleting through a pointer that is not live is undefined
    ([None]). *)
Fixpoint delete_all (l : list (string * nat)) (c : gmap nat Binding)
    : option (gmap nat Binding) :=
  match l with
  | [] => Some c
  | kp :: l' =>
      match c !! kp.2 with
      | Some _ => delete_all l' (delete kp.2 c)
      | None => None
      end
  end.

(** [AoR::clear] on the object at [this]. *)
Definition clear (m : memory) (this : nat) : option memory :=
  match objs m !! this with
  | Some o =>
      match delete_all (ptrs_in_order (obj_bindings o)) (cells m) with
      | Some c =>
          Some {| cells := c;
                  objs := <[this := {| obj_bindings := ∅; obj_cas := obj_cas o |}]>
                            (objs m) |}
      | None => None
      end
  | None => None
  end.

(** The loop shared by the copy constructor and the assignment operator:
    for every entry of [other], [bb = new Binding( *i->second)] and
    [_bindings.insert(make_pair(i->first, bb))].  A new object gets an
    address that is not live. *)
Fixpoint copy_loop (l : list (string * nat)) (c : gmap nat Binding)
    (dst : gmap string nat) : option (gmap nat Binding * gmap string nat) :=
  match l with
  | [] => Some (c, dst)
  | kp :: l' =>
      match c !! kp.2 with
      | Some b =>
          let bb := fresh (dom c) in
          copy_loop l' (<[bb := b]> c) (map_insert_absent kp.1 bb dst)
      | None => None
      end
  end.

(** [AoR::AoR(const AoR& other)], constructing at the address [this],
    where no object lives yet. *)
Definition AoR_copy (m : memory) (this other : nat) : option memory :=
  match objs m !! this, objs m !! other with
  | None, Some o =>
      match copy_loop (ptrs_in_order (obj_bindings o)) (cells m) ∅ with
      | Some (c, dst) =>
          Some {| cells := c;
                  objs := <[this := {| obj_bindings := dst; obj_cas := obj_cas o |}]>
                            (objs m) |}
      | None => None
      end
  | _, _ => None
  end.

(** [AoR::operator=]: nothing for a self-assignment; otherwise [clear()],
    the copying loop, and the CAS. *)
Definition AoR_assign (m : memory) (this other : nat) : option memory :=
  if decide (this = other) then
    match objs m !! this with Some _ => Some m | None => None end
  else
    match clear m this with
    | Some m1 =>
        match objs m1 !! this, objs m1 !! other with
        | Some t, Some o =>
            match copy_loop (ptrs_in_order (obj_bindings o)) (cells m1)
                            (obj_bindings t) with
            | Some (c, dst) =>
                Some {| cells := c;
                        objs := <[this := {| obj_bindings := dst;
                                             obj_cas := obj_cas o |}]> (objs m1) |}
            | None => None
            end
        | _, _ => None
        end
    | None => None
    end.

(** [AoR::~AoR]: [clear()], and the object is gone. *)
Definition AoR_destroy (m : memory) (this : nat) : option memory :=
  match clear m this with
  | Some m1 => Some {| cells := cells m1; objs := delete this (objs m1) |}
  | None => None
  end.

(** Writing a [Binding] through a pointer. *)
Definition write_cell (m : memory) (p : nat) (b : Binding) : memory :=
  {| cells := <[p := b]> (cells m); objs := objs m |}.

(** The AoR value an object stands for: every identifier with the
    [Binding] its pointer leads to. *)
Definition value_of (m : memory) (this : nat) : option AoR :=
  match objs m !! this with
  | Some o =>
      Some {| _bindings := omap (fun p => cells m !! p) (obj_bindings o);
              _cas := obj_cas o |}
  | None => None
  end.

(** The pointers of the object at [this]. *)
Definition pointers_of (m : memory) (this : nat) : gset nat :=
  match objs m !! this with
  | Some o => map_img (obj_bindings o)
  | None => ∅
  end.

(** The object at [this] owns its bindings: every pointer of its map is
    live and no two identifiers share a pointer. *)
Definition owns (m : memory) (this : nat) : Prop :=
  exists o, objs m !! this = Some o
    /\ (forall k p, obj_bindings o !! k = Some p -> is_Some (cells m !! p))
    /\ (forall k1 k2 p, obj_bindings o !! k1 = Some p ->
                        obj_bindings o !! k2 = Some p -> k1 = k2).

End AoRObjects.

(* ===================================================================== *)
(** * 5. The thread dispatcher (thread_dispatcher.cpp)                   *)
(* ===================================================================== *)

Module Dispatcher.

(** The kind of a message. *)
Inductive pjsip_msg_type_e : Type := PJSIP_REQUEST_MSG | PJSIP_RESPONSE_MSG.

(** The method of a request, as far as the code tells them apart. *)
Inductive pjsip_method_e : Type :=
| PJSIP_INVITE_METHOD | PJSIP_CANCEL_METHOD | PJSIP_ACK_METHOD
| PJSIP_BYE_METHOD | PJSIP_REGISTER_METHOD | PJSIP_OPTIONS_METHOD
| PJSIP_OTHER_METHOD.

(** Equality of method identifiers. *)
Definition pjsip_method_eqb (x y : pjsip_method_e) : bool :=
  match x, y with
  | PJSIP_INVITE_METHOD, PJSIP_INVITE_METHOD
  | PJSIP_CANCEL_METHOD, PJSIP_CANCEL_METHOD
  | PJSIP_ACK_METHOD, PJSIP_ACK_METHOD
  | PJSIP_BYE_METHOD, PJSIP_BYE_METHOD
  | PJSIP_REGISTER_METHOD, PJSIP_REGISTER_METHOD
  | PJSIP_OPTIONS_METHOD, PJSIP_OPTIONS_METHOD
  | PJSIP_OTHER_METHOD, PJSIP_OTHER_METHOD => true
  | _, _ => false
  end.

(** What the code looks at in a received message ([pjsip_rx_data]). *)
Record pjsip_rx_data : Type := mk_rdata {
  rdata_trail : Z;                       (* get_trail(rdata) *)
  rdata_msg_type : pjsip_msg_type_e;     (* msg_info.msg->type *)
  rdata_method : pjsip_method_e;         (* msg_info.msg->line.req.method.id *)
  rdata_cid : option string;             (* msg_info.cid, may be NULL *)
  rdata_cseq : option (Z * string)       (* msg_info.cseq, may be NULL *)
}.

(** [set_trail(rdata, trail)] *)
Definition set_trail (rdata : pjsip_rx_data) (trail : Z) : pjsip_rx_data :=
  {| rdata_trail := trail; rdata_msg_type := rdata_msg_type rdata;
     rdata_method := rdata_method rdata; rdata_cid := rdata_cid rdata;
     rdata_cseq := rdata_cseq rdata |}.

(** Constants of the SIP stack. *)
Definition PJ_SUCCESS : Z := 0.
Definition PJ_TRUE : Z := 1.
Definition PJSIP_SC_INTERNAL_SERVER_ERROR : Z := 500.

(** The SAS event the dispatcher reports. *)
Inductive SASEvent : Type := BEGIN_THREAD_DISPATCHER.

(** Modelled from the spec: [MessageEvent] (thread_dispatcher.h is not
    among the sources), a cloned message, which may be NULL, paired with
    a stop watch; the stop watch is read through the environment. *)
Record MessageEvent : Type := mk_MessageEvent {
  me_rdata : option pjsip_rx_data
}.

(** Modelled from the spec: [struct worker_thread_qe], a message event
    or a callback event (the callback named by a number). *)
Inductive worker_thread_qe : Type :=
| MESSAGE (me : MessageEvent)
| CALLBACK (cb : nat).

(** The calls the dispatcher makes on its collaborators, in the order it
    makes them.  Trace statements ([TRC_DEBUG], [TRC_ERROR]) are left
    out. *)
Inductive action : Type :=
| sas_report_event (trail : Z) (event : SASEvent) (instance : Z)
| q_is_deadlocked (answer : bool)
| deadlock_log                      (* CL_SPROUT_SIP_DEADLOCK.log() *)
| process_abort                     (* abort() *)
| process_exit (code : Z)           (* exit(code) *)
| stop_watch_start
| rx_data_clone (rdata : pjsip_rx_data) (status : Z)
| queue_size_accumulate (size : nat)
| q_push (qe : worker_thread_qe)
| endpt_process_rx_data (rdata : pjsip_rx_data)
| respond_stateless (rdata : pjsip_rx_data) (status_code : Z)
                    (retry_after : option Z)
| rx_data_free_cloned (rdata : pjsip_rx_data)
| latency_accumulate (latency_us : Z)
| load_monitor_request_complete (latency_us : Z)
| callback_run (cb : nat).

(** Modelled from the spec: the event queue ([eventq], eventq.h is not
    among the sources), a FIFO of work items with a deadlock threshold
    that can be set on it. *)
Record eventq : Type := mk_eventq {
  q_items : list worker_thread_qe;
  q_deadlock_threshold : option Z
}.

(** [event_q.push(qe)] *)
Definition eventq_push (q : eventq) (qe : worker_thread_qe) : eventq :=
  {| q_items := q_items q ++ [qe];
     q_deadlock_threshold := q_deadlock_threshold q |}.

(** [event_q.set_deadlock_threshold(ms)] *)
Definition set_deadlock_threshold (q : eventq) (ms : Z) : eventq :=
  {| q_items := q_items q; q_deadlock_threshold := Some ms |}.

(** The file's static variables that the message path reads; the vector
    [worker_threads] is carried beside them. *)
Record dispatcher : Type := mk_dispatcher {
  event_q : eventq;
  num_worker_threads : Z
}.

(** Deadlock detection threshold for the message queue, in milliseconds. *)
Definition MSG_Q_DEADLOCK_TIME : Z := 4000.

(** The static variables as initialised. *)
Definition dispatcher_initial : dispatcher :=
  {| event_q := {| q_items := []; q_deadlock_threshold := None |};
     num_worker_threads := 1 |}.

(** [worker_threads], a vector of thread handles; a NULL handle is
    [None]. *)
Abbreviation thread_vector := (list (option nat)).

(** [worker_threads.resize(num_worker_threads_arg)], the first statement
    of [init_thread_dispatcher]: a negative argument converts to a size no
    vector can have and [resize] throws ([None]). *)
Definition resize_worker_threads (v : thread_vector) (num_worker_threads_arg : Z)
    : option thread_vector :=
  if num_worker_threads_arg <? 0 then None
  else Some (resize (Z.to_nat num_worker_threads_arg) None v).

(** [init_thread_dispatcher], from the vector [worker_threads] and the
    other static variables as they stand: the vector is resized first, and
    when that throws the function is left ([None]) with nothing else done;
    otherwise the deadlock threshold is set on the queue, the number of
    workers is stored, and [PJ_SUCCESS] is returned together with the
    vector and the variables as left (the tables, load monitor and
    exception handler it stores are named by the actions that use them). *)
Definition init_thread_dispatcher (v : thread_vector) (d : dispatcher)
    (num_worker_threads_arg : Z) : option (thread_vector * dispatcher * Z) :=
  match resize_worker_threads v num_worker_threads_arg with
  | None => None
  | Some v' =>
      let event_q' := set_deadlock_threshold (event_q d) MSG_Q_DEADLOCK_TIME in
      Some (v',
            {| event_q := event_q';
               num_worker_threads := num_worker_threads_arg |},
            PJ_SUCCESS)
  end.

(** What the surroundings answer: whether the queue finds itself
    deadlocked, what cloning a message gives, whether the processing of a
    message crashes, and what reading the stop watch of an event gives
    (the latency in microseconds, unless the read fails). *)
Record environment : Type := mk_environment {
  is_deadlocked : bool;
  pjsip_rx_data_clone : pjsip_rx_data -> Z * pjsip_rx_data;
  processing_crashes : pjsip_rx_data -> bool;
  stop_watch_read : MessageEvent -> option Z
}.

(** How a piece of code ends: by returning a value, or with the process
    gone. *)
Inductive ending (A : Type) : Type :=
| returns (a : A)
| process_ended.
Arguments returns {A} a.
Arguments process_ended {A}.

(** [threads_on_rx_msg]: the calls made, the dispatcher afterwards, and
    how the hook ends. *)
Definition threads_on_rx_msg (env : environment) (d : dispatcher)
    (rdata : pjsip_rx_data) : list action * dispatcher * ending Z :=
  let t0 := [sas_report_event (rdata_trail rdata) BEGIN_THREAD_DISPATCHER 0;
             q_is_deadlocked (is_deadlocked env)] in
  if is_deadlocked env then
    (t0 ++ [deadlock_log; process_abort], d, process_ended)
  else
    let '(status, clone_rdata) := pjsip_rx_data_clone env rdata in
    let t1 := t0 ++ [stop_watch_start; rx_data_clone rdata status] in
    if negb (status =? PJ_SUCCESS) then
      (t1, d, returns PJ_TRUE)
    else
      let clone_rdata := set_trail clone_rdata (rdata_trail rdata) in
      let me := {| me_rdata := Some clone_rdata |} in
      let qe := MESSAGE me in
      (t1 ++ [queue_size_accumulate (length (q_items (event_q d))); q_push qe],
       {| event_q := eventq_push (event_q d) qe;
          num_worker_threads := num_worker_threads d |},
       returns PJ_TRUE).

(** The handler block of the exception barrier around the processing of
    a message (between [CW_EXCEPT] and [CW_END]). *)
Definition on_exception (d : dispatcher) (rdata : pjsip_rx_data)
    : list action * ending unit :=
  let t :=
    if match rdata_msg_type rdata with PJSIP_REQUEST_MSG => true | _ => false end
       && negb (pjsip_method_eqb (rdata_method rdata) PJSIP_ACK_METHOD)
    then [respond_stateless rdata PJSIP_SC_INTERNAL_SERVER_ERROR (Some 600)]
    else [] in
  if num_worker_threads d =? 1
  then (t ++ [process_exit 1], process_ended)
  else (t, returns tt).

(** The response of the handler block by the kind of message: for a
    request other than an ACK a 500 with Retry-After 600, else none. *)
Definition crash_response (rdata : pjsip_rx_data) : list action :=
  match rdata_msg_type rdata, rdata_method rdata with
  | PJSIP_RESPONSE_MSG, _ => []
  | PJSIP_REQUEST_MSG, PJSIP_ACK_METHOD => []
  | PJSIP_REQUEST_MSG, _ => [respond_stateless rdata 500 (Some 600)]
  end.

(** What the worker does after the barrier with a message. *)
Definition after_message (env : environment) (me : MessageEvent)
    (rdata : pjsip_rx_data) : list action :=
  rx_data_free_cloned rdata ::
  match stop_watch_read env me with
  | Some latency_us =>
      [latency_accumulate latency_us; load_monitor_request_complete latency_us]
  | None => []
  end.

(** One turn of the worker's loop, for the event popped.  The macros
    [CW_TRY], [CW_EXCEPT] and [CW_END] (exception_handler.h) are not among
    the sources; following the specification they form a barrier that
    catches a crash of the downstream processing and then runs the
    handler block. *)
Definition worker_handle (env : environment) (d : dispatcher)
    (qe : worker_thread_qe) : list action * ending unit :=
  match qe with
  | MESSAGE me =>
      match me_rdata me with
      | Some rdata =>
          if processing_crashes env rdata then
            match on_exception d rdata with
            | (t, returns _) =>
                (endpt_process_rx_data rdata :: t ++ after_message env me rdata,
                 returns tt)
            | (t, process_ended) =>
                (endpt_process_rx_data rdata :: t, process_ended)
            end
          else
            (endpt_process_rx_data rdata :: after_message env me rdata,
             returns tt)
      | None => ([], returns tt)
      end
  | CALLBACK cb => ([callback_run cb], returns tt)
  end.

(** [worker_thread] on the events its [pop] calls deliver, until the
    queue is terminated (the list ends) or the process is gone. *)
Fixpoint worker_thread (env : environment) (d : dispatcher)
    (popped : list worker_thread_qe) : list action * ending Z :=
  match popped with
  | [] => ([], returns 0)
  | qe :: popped' =>
      match worker_handle env d qe with
      | (t, returns _) =>
          let '(t', e) := worker_thread env d popped' in (t ++ t', e)
      | (t, process_ended) => (t, process_ended)
      end
  end.

(** ** add_callback_to_queue *)

(** [add_callback_to_queue]: the queue size is sampled, then the callback
    event is pushed. *)
Definition add_callback_to_queue (d : dispatcher) (cb : nat)
    : list action * dispatcher :=
  let qe := CALLBACK cb in
  ([queue_size_accumulate (length (q_items (event_q d))); q_push qe],
   {| event_q := eventq_push (event_q d) qe;
      num_worker_threads := num_worker_threads d |}).

(** What a transport thread or another module hands to the dispatcher: a
    received message, or a callback to run. *)
Inductive submission : Type :=
| received (rdata : pjsip_rx_data)
| callback (cb : nat).

(** A run of submissions, one after the other: [threads_on_rx_msg] for a
    message, [add_callback_to_queue] for a callback; the run stops when
    the process is gone. *)
Fixpoint submit_all (env : environment) (d : dispatcher) (subs : list submission)
    : list action * dispatcher * ending unit :=
  match subs with
  | [] => ([], d, returns tt)
  | received rdata :: subs' =>
      match threads_on_rx_msg env d rdata with
      | (t, d', returns _) =>
          let '(t', d'', e) := submit_all env d' subs' in (t ++ t', d'', e)
      | (t, d', process_ended) => (t, d', process_ended)
      end
  | callback cb :: subs' =>
      let '(t, d') := add_callback_to_queue d cb in
      let '(t', d'', e) := submit_all env d' subs' in (t ++ t', d'', e)
  end.

(** The message as a worker gets it: the clone, with the trail of the
    message received. *)
Definition cloned (env : environment) (rdata : pjsip_rx_data) : pjsip_rx_data :=
  set_trail (pjsip_rx_data_clone env rdata).2 (rdata_trail rdata).

(** The queue entry a submission leads to. *)
Definition queued (env : environment) (sub : submission) : worker_thread_qe :=
  match sub with
  | received rdata => MESSAGE {| me_rdata := Some (cloned env rdata) |}
  | callback cb => CALLBACK cb
  end.

(** The work a submission leads to. *)
Definition work_for (env : environment) (sub : submission) : submission :=
  match sub with
  | received rdata => received (cloned env rdata)
  | callback cb => callback cb
  end.

(** The work a worker's call stands for: the processing of a message or
    the run of a callback. *)
Definition work_of (a : action) : option submission :=
  match a with
  | endpt_process_rx_data rdata => Some (received rdata)
  | callback_run cb => Some (callback cb)
  | _ => None
  end.

(** The message a call releases. *)
Definition freed_by (a : action) : option pjsip_rx_data :=
  match a with
  | rx_data_free_cloned rdata => Some rdata
  | _ => None
  end.

(** The cloned message a queue entry holds. *)
Definition rdata_of (qe : worker_thread_qe) : option pjsip_rx_data :=
  match qe with
  | MESSAGE me => me_rdata me
  | CALLBACK _ => None
  end.

(** The submission a queue entry stands for (none for a message event
    without message). *)
Definition submission_of (qe : worker_thread_qe) : option submission :=
  match qe with
  | MESSAGE me => received <$> me_rdata me
  | CALLBACK cb => Some (callback cb)
  end.

(** ** The worker threads *)

(** The calls made when the workers are started and stopped. *)
Inductive pool_action : Type :=
| thread_create (ii : nat) (status : Z)
| q_terminate
| thread_join (thread : option nat).

(** The loop of [start_worker_threads] from index [ii] on, with [todo]
    turns left; [create ii] is what [pj_thread_create] gives in turn [ii]:
    a status and a thread handle.  The result is the calls made, the
    vector, and the value returned. *)
Fixpoint start_loop (create : nat -> Z * nat) (ii todo : nat) (v : thread_vector)
    : list pool_action * thread_vector * Z :=
  match todo with
  | O => ([], v, PJ_SUCCESS)
  | S todo' =>
      let '(status, thread) := create ii in
      if negb (status =? PJ_SUCCESS) then
        ([thread_create ii status], v, 1)
      else
        let '(t, v', r) := start_loop create (S ii) todo' (<[ii := Some thread]> v) in
        (thread_create ii status :: t, v', r)
  end.

(** [start_worker_threads] *)
Definition start_worker_threads (create : nat -> Z * nat) (v : thread_vector)
    : list pool_action * thread_vector * Z :=
  start_loop create 0 (length v) v.

(** [stop_worker_threads]: the queue is terminated, every entry of the
    vector is joined, and the vector is cleared. *)
Definition stop_worker_threads (v : thread_vector)
    : list pool_action * thread_vector :=
  (q_terminate :: map thread_join v, []).

End Dispatcher.

(* ===================================================================== *)
(** * 6. Response consolidation across forks                             *)
(* ===================================================================== *)

Module Consolidation.

(** Modelled from the spec: the service transaction context that
    consolidates the responses of the forks is declared in appserver.h
    but implemented outside the sources at hand.  This is the
    specification's best-response rule for final responses that are not
    2xx: classes rank 6xx > 2xx > 3xx > 4xx > 5xx, within a class the
    lowest code wins, within a code the response that arrived first. *)
Definition class_rank (status_code : Z) : Z :=
  match status_code / 100 with
  | 6 => 5
  | 2 => 4
  | 3 => 3
  | 4 => 2
  | 5 => 1
  | _ => 0
  end.

(** Modelled from the spec: [a] has strictly higher priority than [b]:
    a higher class, or the same class and a lower code. *)
Definition outranks (a b : Z) : bool :=
  (class_rank b <? class_rank a)
  || ((class_rank a =? class_rank b) && (a <? b)).

(** Modelled from the spec: a final response, by the fork it came from
    and its status code. *)
Record response : Type := mk_response {
  rsp_fork : nat;
  rsp_code : Z
}.

(** Modelled from the spec: the context's consolidation state: the
    number of forks created, the forks that have reported a final
    response, and the best response remembered so far. *)
Record context : Type := mk_context {
  forks_created : nat;
  forks_final : gset nat;
  best : option response
}.

(** Modelled from the spec: the state once [forks] forks are created
    and none has answered. *)
Definition context_new (forks : nat) : context :=
  {| forks_created := forks; forks_final := ∅; best := None |}.

(** Modelled from the spec: the remembered response is replaced only by
    one of strictly higher priority, so of two equal codes the earlier
    stays. *)
Definition remember (b : option response) (r : response) : option response :=
  match b with
  | None => Some r
  | Some b0 => if outranks (rsp_code r) (rsp_code b0) then Some r else Some b0
  end.

(** Modelled from the spec: every fork created has reported a final
    response (fork identifiers are 0, 1, ...). *)
Definition all_final (c : context) : bool :=
  forallb (fun f => bool_decide (f ∈ forks_final c)) (seq 0 (forks_created c)).

(** Modelled from the spec: a final response that is not 2xx arrives on a
    fork.  The result is the new state and the response forwarded
    upstream at this moment, if any. *)
Definition on_final_response (c : context) (r : response)
    : context * option response :=
  let c' := {| forks_created := forks_created c;
               forks_final := {[rsp_fork r]} ∪ forks_final c;
               best := remember (best c) r |} in
  (c', if all_final c' then best c' else None).

(** Modelled from the spec: a run of arrivals, giving the final state
    and everything forwarded upstream, in order. *)
Fixpoint consolidate (c : context) (rs : list response)
    : context * list response :=
  match rs with
  | [] => (c, [])
  | r :: rs' =>
      let '(c', fwd) := on_final_response c r in
      let '(c'', fwds) := consolidate c' rs' in
      (c'', match fwd with Some b => b :: fwds | None => fwds end)
  end.

(** What holds of the state after the arrivals [seen]: the forks that
    have reported are those of [seen], and the response remembered is the
    first of its code in [seen] and outranked by none. *)
Definition consolidated (c : context) (seen : list response) : Prop :=
  (forall f, f ∈ forks_final c <-> exists r, r ∈ seen /\ rsp_fork r = f)
  /\ match best c with
     | None => seen = []
     | Some b =>
         (exists l1 l2, seen = l1 ++ b :: l2
                        /\ forall r, r ∈ l1 -> rsp_code r <> rsp_code b)
         /\ forall r, r ∈ seen -> outranks (rsp_code r) (rsp_code b) = false
     end.

End Consolidation.

(* ===================================================================== *)
(** * 7. Sample values                                                   *)
(* ===================================================================== *)

Module Samples.
Import RegStore AoRObjects Dispatcher Consolidation.

(** A binding that expires at time 1060. *)
Definition binding_fresh : Binding :=
  {| _uri := "sip:alice@192.0.2.1:5060"; _cid := "gfYHoZGaFaRN"; _cseq := 17;
     _expires := 1060; _priority := 0;
     _params := [("+sip.ice", ""); ("reg-id", "1")];
     _path_headers := ["sip:edge.example.net;lr"] |}.

(** A binding that expired at time 999. *)
Definition binding_stale : Binding :=
  {| _uri := "sip:alice@192.0.2.7:5060"; _cid := "gfYHoZGaFaRN"; _cseq := 16;
     _expires := 999; _priority := -1;
     _params := []; _path_headers := [] |}.

(** An AoR with both, as read from the store with CAS 5. *)
Definition aor_two : AoR :=
  {| _bindings := <["ua-2" := binding_fresh]> {["ua-1" := binding_stale]};
     _cas := 5 |}.

(** A newly built AoR with one binding. *)
Definition aor_one : AoR :=
  {| _bindings := {["ua-2" := binding_fresh]}; _cas := 0 |}.

(** A binding whose contact URI holds a NUL character. *)
Definition binding_nul : Binding :=
  {| _uri := "sip:a" +:+ String NUL "@x"; _cid := "cid1"; _cseq := 1;
     _expires := 300; _priority := 0; _params := []; _path_headers := [] |}.

(** An AoR with that binding. *)
Definition aor_nul : AoR :=
  {| _bindings := {["b1" := binding_nul]}; _cas := 0 |}.

(** A binding with a parameter whose name ends in a NUL character and
    whose value is four bytes 255. *)
Definition binding_nul_param : Binding :=
  {| _uri := "sip:a@x"; _cid := "cid1"; _cseq := 1; _expires := 300;
     _priority := 0;
     _params := [("k" +:+ String NUL "",
                  string_of_bytes (replicate 4 (ascii_of_N 255)))];
     _path_headers := [] |}.

(** An AoR with that binding. *)
Definition aor_nul_param : AoR :=
  {| _bindings := {["b1" := binding_nul_param]}; _cas := 0 |}.

(** An AoR without bindings that carries the CAS of an earlier read. *)
Definition aor_cas : AoR := {| _bindings := ∅; _cas := 7 |}.

(** A store without entries. *)
Definition mem_empty : MemStore := {| mem_entries := ∅ |}.

(** A store in which an entry was deleted by writing an empty value. *)
Definition mem_blank : MemStore :=
  {| mem_entries := {[("reg", "sip:gone@example.net") := ("", 2, 0)]} |}.

(** A store holding the record of [aor_two] under version 5. *)
Definition mem_two : MemStore :=
  {| mem_entries :=
       {[("reg", "sip:alice@example.net") := (serialize_aor aor_two, 5, 600)]} |}.

(** A store holding the record of [aor_one] under version 3. *)
Definition mem_one : MemStore :=
  {| mem_entries := {[("reg", "sip:alice@example.net") := (serialize_aor aor_one, 3, 60)]} |}.

(** A received INVITE and a received ACK. *)
Definition rdata_invite : pjsip_rx_data :=
  {| rdata_trail := 42; rdata_msg_type := PJSIP_REQUEST_MSG;
     rdata_method := PJSIP_INVITE_METHOD; rdata_cid := Some "call-1";
     rdata_cseq := Some (1, "INVITE") |}.

Definition rdata_ack : pjsip_rx_data :=
  {| rdata_trail := 43; rdata_msg_type := PJSIP_REQUEST_MSG;
     rdata_method := PJSIP_ACK_METHOD; rdata_cid := Some "call-1";
     rdata_cseq := Some (1, "ACK") |}.

(** Surroundings in which every message crashes its processing. *)
Definition env_crashing : environment :=
  {| is_deadlocked := false;
     pjsip_rx_data_clone := fun rdata => (PJ_SUCCESS, rdata);
     processing_crashes := fun _ => true;
     stop_watch_read := fun _ => Some 250 |}.

(** Surroundings in which the queue finds itself deadlocked. *)
Definition env_deadlocked : environment :=
  {| is_deadlocked := true;
     pjsip_rx_data_clone := fun rdata => (PJ_SUCCESS, rdata);
     processing_crashes := fun _ => false;
     stop_watch_read := fun _ => None |}.

(** Surroundings in which cloning fails (PJ_ENOMEM). *)
Definition env_clone_fails : environment :=
  {| is_deadlocked := false;
     pjsip_rx_data_clone := fun rdata => (70007, rdata);
     processing_crashes := fun _ => false;
     stop_watch_read := fun _ => Some 250 |}.

(** The dispatcher initialised for two worker threads: the static
    variables as [init_thread_dispatcher] leaves them, called with 2 on
    the empty vector. *)
Definition dispatcher_two_workers : dispatcher :=
  match init_thread_dispatcher [] dispatcher_initial 2 with
  | Some (_, d, _) => d
  | None => dispatcher_initial
  end.

(** Two forks answering 486 and 480. *)
Definition finals_busy : list response :=
  [ {| rsp_fork := 0; rsp_code := 486 |}; {| rsp_fork := 1; rsp_code := 480 |} ].

(** A memory with an AoR object at address 1 that owns two bindings, and
    an AoR object at address 2 that owns one. *)
Definition memory_two : memory :=
  {| cells := <[10%nat := binding_fresh]>
                (<[11%nat := binding_stale]> {[12%nat := binding_nul]});
     objs := <[1%nat := {| obj_bindings := <["ua-2" := 10%nat]> {["ua-1" := 11%nat]};
                           obj_cas := 5 |}]>
               {[2%nat := {| obj_bindings := {["b1" := 12%nat]}; obj_cas := 0 |}]} |}.

(** Thread creation that succeeds in every turn, and one that fails in
    turn 2 (PJ_ENOMEM). *)
Definition create_ok (ii : nat) : Z * nat := (PJ_SUCCESS, (100 + ii)%nat).

Definition create_fails_at_2 (ii : nat) : Z * nat :=
  if (ii =? 2)%nat then (70007, 0%nat) else (PJ_SUCCESS, (100 + ii)%nat).

(** Surroundings in which nothing goes wrong. *)
Definition env_calm : environment :=
  {| is_deadlocked := false;
     pjsip_rx_data_clone := fun rdata => (PJ_SUCCESS, rdata);
     processing_crashes := fun _ => false;
     stop_watch_read := fun _ => Some 250 |}.

End Samples.

(* ===================================================================== *)
(** * 8. Facts about integers, strings and streams                       *)
(* ===================================================================== *)

Import RegStore.


Lemma wrap_in_range z : Int.in_range z -> Int.wrap z = z.
Proof.
  unfold Int.in_range, Int.wrap, Int.min_signed, Int.max_signed, Int.modulus.
  intros H. rewrite Z.mod_small; lia.
Qed.

Lemma wrap_mod z : Int.wrap (z mod Int.modulus) = Int.wrap z.
Proof.
  unfold Int.wrap, Int.modulus. f_equal.
  rewrite Zplus_mod_idemp_l. reflexivity.
Qed.

Lemma in_rangeb_true z : Int.in_rangeb z = true <-> Int.in_range z.
Proof.
  unfold Int.in_rangeb, Int.in_range.
  rewrite andb_true_iff, !Z.leb_le. reflexivity.
Qed.

Lemma byte_val_byte_at z i :
  Int.byte_val (Int.byte_at z i) = (z / 2 ^ (8 * i)) mod 256.
Proof.
  unfold Int.byte_val, Int.byte_at.
  assert (Hb : 0 <= (z / 2 ^ (8 * i)) mod 256 < 256) by (apply Z.mod_pos_bound; lia).
  rewrite N_ascii_embedding.
  - rewrite Z2N.id; lia.
  - change 256%N with (Z.to_N 256). apply Z2N.inj_lt; lia.
Qed.

Lemma unsigned_of_to_bytes z :
  Int.unsigned_of_bytes (Int.to_bytes z) = z mod Int.modulus.
Proof.
  unfold Int.to_bytes, Int.unsigned_of_bytes.
  rewrite !byte_val_byte_at.
  change (8 * 0) with 0. change (8 * 1) with 8.
  change (8 * 2) with 16. change (8 * 3) with 24.
  change (2 ^ 0) with 1. rewrite Z.div_1_r.
  change (2 ^ 16) with (2 ^ 8 * 2 ^ 8).
  change (2 ^ 24) with (2 ^ 8 * (2 ^ 8 * 2 ^ 8)).
  rewrite <- !Z.div_div by lia.
  change (2 ^ 8) with 256.
  unfold Int.modulus. change (2 ^ 32) with (256 * (256 * (256 * 256))).
  rewrite !Z.rem_mul_r by lia. lia.
Qed.

Lemma of_to_bytes z : Int.in_range z -> Int.of_bytes (Int.to_bytes z) = z.
Proof.
  intros H. unfold Int.of_bytes. rewrite unsigned_of_to_bytes, wrap_mod.
  apply wrap_in_range, H.
Qed.


Lemma append_cons c (s r : string) : String c s +:+ r = String c (s +:+ r).
Proof. reflexivity. Qed.

Lemma append_nil_l (s : string) : "" +:+ s = s.
Proof. reflexivity. Qed.

Lemma append_assoc (s1 s2 s3 : string) : (s1 +:+ s2) +:+ s3 = s1 +:+ (s2 +:+ s3).
Proof.
  induction s1 as [|c s1 IH]; [reflexivity|].
  rewrite !append_cons. now rewrite IH.
Qed.

Lemma append_nil_r (s : string) : s +:+ "" = s.
Proof.
  induction s as [|c s IH]; [reflexivity|].
  rewrite append_cons. now rewrite IH.
Qed.

Lemma scan_delim_cstr s r :
  cstring_ok s = true -> scan_delim NUL (write_cstr s +:+ r) = Some (s, r).
Proof.
  unfold write_cstr. induction s as [|c s IH]; intros H.
  - reflexivity.
  - cbn [cstring_ok] in H.
    apply andb_true_iff in H as [Hc Hs]. apply negb_true_iff in Hc.
    rewrite !append_cons. cbn [scan_delim]. rewrite Hc, (IH Hs). reflexivity.
Qed.

Lemma getline_cstr s r old :
  cstring_ok s = true ->
  getline (iss_open (write_cstr s +:+ r)) old = (s, iss_open r).
Proof.
  intros H. unfold getline, iss_open. cbn [iss_good iss_eof iss_fail iss_rest negb andb].
  now rewrite scan_delim_cstr.
Qed.

Lemma iss_read_int z r :
  iss_read 4 (iss_open (write_int z +:+ r)) = (Int.to_bytes z, iss_open r).
Proof. reflexivity. Qed.

Lemma read_int_write z r old :
  Int.in_range z -> read_int (iss_open (write_int z +:+ r)) old = (z, iss_open r).
Proof.
  intros H. unfold read_int. rewrite iss_read_int.
  cbn [length Int.to_bytes drop]. rewrite app_nil_r. now rewrite of_to_bytes.
Qed.

Lemma read_uninit_int_write z r :
  Int.in_range z -> read_uninit_int (iss_open (write_int z +:+ r)) = (Some z, iss_open r).
Proof.
  intros H. unfold read_uninit_int. rewrite iss_read_int.
  cbn [length Int.to_bytes Nat.eqb]. now rewrite of_to_bytes.
Qed.

Lemma size_ok_wrap n : size_ok n = true -> int_of_size n = Z.of_nat n.
Proof.
  unfold size_ok, int_of_size. intros H%Z.leb_le. apply wrap_in_range.
  unfold Int.in_range, Int.max_signed, Int.min_signed in *. lia.
Qed.

Lemma size_ok_in_range n : size_ok n = true -> Int.in_range (int_of_size n).
Proof.
  intros H. rewrite (size_ok_wrap _ H). apply Z.leb_le in H.
  unfold Int.in_range, Int.max_signed, Int.min_signed in *. lia.
Qed.

Lemma read_params_serialized ps : forall olds r,
  forallb param_ok ps = true -> length olds = length ps ->
  read_params olds (iss_open (serialize_params ps +:+ r)) = (ps, iss_open r).
Proof.
  induction ps as [|[k v] ps IH]; intros olds r Hok Hlen.
  - destruct olds; [reflexivity | discriminate].
  - destruct olds as [|o olds]; [discriminate|].
    cbn in Hok. apply andb_true_iff in Hok as [Hp Hps].
    apply andb_true_iff in Hp as [Hk Hv]. cbn in Hk, Hv.
    cbn [serialize_params read_params]. unfold serialize_param. cbn [fst snd].
    rewrite !append_assoc, (getline_cstr _ _ _ Hk), (getline_cstr _ _ _ Hv).
    rewrite IH; [reflexivity | assumption | now inversion Hlen].
Qed.

Lemma read_paths_serialized hs : forall olds r,
  forallb cstring_ok hs = true -> length olds = length hs ->
  read_paths olds (iss_open (serialize_paths hs +:+ r)) = (hs, iss_open r).
Proof.
  induction hs as [|h hs IH]; intros olds r Hok Hlen.
  - destruct olds; [reflexivity | discriminate].
  - destruct olds as [|o olds]; [discriminate|].
    cbn in Hok. apply andb_true_iff in Hok as [Hh Hhs].
    cbn [serialize_paths read_paths].
    rewrite !append_assoc, (getline_cstr _ _ _ Hh).
    rewrite IH; [reflexivity | assumption | now inversion Hlen].
Qed.

Lemma list_resize_size {A} n (d : A) l :
  size_ok n = true ->
  exists l', list_resize (int_of_size n) d l = Returned l' /\ length l' = n.
Proof.
  intros H. rewrite (size_ok_wrap _ H). unfold list_resize.
  destruct (Z.ltb_spec (Z.of_nat n) 0); [lia|].
  eexists; split; [reflexivity|]. rewrite length_resize. lia.
Qed.

Lemma bind_Returned {A B} (a : A) (f : A -> outcome B) : Returned a ≫= f = f a.
Proof. reflexivity. Qed.

Lemma store_after_get a k b :
  store_binding (get_binding a k).2 k b = store_binding a k b.
Proof.
  unfold get_binding, store_binding.
  destruct (_bindings a !! k); cbn; [reflexivity|].
  now rewrite insert_insert_eq.
Qed.

Lemma deserialize_binding_serialized a kb r :
  binding_ok kb = true ->
  deserialize_binding a (iss_open (serialize_binding kb +:+ r))
  = Returned (store_binding a kb.1 kb.2, iss_open r).
Proof.
  destruct kb as [k [uri cid cseq expires priority params paths]].
  unfold binding_ok. cbn [fst snd _uri _cid _cseq _expires _priority _params _path_headers].
  rewrite !andb_true_iff, !in_rangeb_true.
  intros [[[[[[[[[Hk Huri] Hcid] Hcseq] Hexp] Hprio] Hnp] Hps] Hnh] Hhs].
  unfold deserialize_binding, serialize_binding.
  cbn [fst snd _uri _cid _cseq _expires _priority _params _path_headers].
  rewrite !append_assoc.
  rewrite (getline_cstr _ _ _ Hk).
  pose proof (store_after_get a k) as Hst.
  destruct (get_binding a k) as [b a'] eqn:Hget. cbn [snd] in Hst.
  rewrite (getline_cstr _ _ _ Huri), (getline_cstr _ _ _ Hcid).
  rewrite (read_int_write _ _ _ Hcseq), (read_int_write _ _ _ Hexp),
    (read_int_write _ _ _ Hprio).
  rewrite (read_uninit_int_write _ _ (size_ok_in_range _ Hnp)).
  cbn [use_int]. rewrite bind_Returned.
  destruct (list_resize_size (length params) ("", "") (_params b) Hnp)
    as (ps0 & -> & Hlen0).
  rewrite bind_Returned, (read_params_serialized _ _ _ Hps Hlen0).
  rewrite (read_int_write _ _ _ (size_ok_in_range _ Hnh)).
  destruct (list_resize_size (length paths) "" (_path_headers b) Hnh)
    as (hs0 & -> & Hlen1).
  rewrite bind_Returned.
  rewrite <- (append_nil_r (serialize_paths paths)) at 1.
  rewrite append_assoc, append_nil_l.
  rewrite (read_paths_serialized _ _ _ Hhs Hlen1).
  now rewrite Hst.
Qed.

Lemma deserialize_loop_serialized l : forall a r,
  forallb binding_ok l = true ->
  deserialize_loop (length l) a (iss_open (serialize_bindings l +:+ r))
  = Returned (store_all a l, iss_open r).
Proof.
  induction l as [|kb l IH]; intros a r Hok.
  - reflexivity.
  - cbn [forallb] in Hok. apply andb_true_iff in Hok as [Hkb Hl].
    cbn [length deserialize_loop serialize_bindings].
    rewrite append_assoc, (deserialize_binding_serialized _ _ _ Hkb).
    rewrite bind_Returned. now rewrite (IH _ _ Hl).
Qed.

Lemma store_all_bindings l : forall a,
  _bindings (store_all a l) = list_to_map (reverse l) ∪ _bindings a.
Proof.
  induction l as [|[k b] l IH]; intros a.
  - cbn. now rewrite (left_id_L ∅ (∪)).
  - unfold store_all in *. cbn [foldl]. rewrite IH. cbn [store_binding _bindings fst snd].
    rewrite reverse_cons, list_to_map_app. cbn [list_to_map foldr fst snd].
    rewrite <- (assoc_L (∪)). f_equal.
    rewrite insert_union_singleton_l.
    rewrite <- insert_union_singleton_l at 1.
    now rewrite insert_empty, <- insert_union_singleton_l.
Qed.

Lemma store_all_cas l : forall a, _cas (store_all a l) = _cas a.
Proof.
  induction l as [|kb l IH]; intros a; [reflexivity|].
  unfold store_all in *. cbn [foldl]. now rewrite IH.
Qed.

Lemma in_order_perm (m : gmap string Binding) : in_order m ≡ₚ map_to_list m.
Proof. apply merge_sort_Permutation. Qed.

Lemma in_order_sorted (m : gmap string Binding) : Sorted key_le (in_order m).
Proof.
  apply Sorted_merge_sort. intros x y. unfold key_le. apply total, _.
Qed.

Lemma in_order_length (m : gmap string Binding) : length (in_order m) = size m.
Proof. now rewrite in_order_perm, length_map_to_list. Qed.

Lemma in_order_NoDup_keys (m : gmap string Binding) : NoDup (in_order m).*1.
Proof. rewrite in_order_perm. apply NoDup_fst_map_to_list. Qed.

Lemma in_order_lookup (m : gmap string Binding) k b :
  (k, b) ∈ in_order m <-> m !! k = Some b.
Proof. rewrite in_order_perm. apply elem_of_map_to_list. Qed.

Lemma store_all_in_order (m : gmap string Binding) :
  _bindings (store_all AoR_new (in_order m)) = m.
Proof.
  rewrite store_all_bindings. cbn [AoR_new _bindings].
  rewrite (right_id_L ∅ (∪)).
  rewrite <- (list_to_map_to_list m) at 2.
  apply list_to_map_proper.
  - rewrite fmap_reverse, reverse_Permutation. apply in_order_NoDup_keys.
  - rewrite reverse_Permutation. apply in_order_perm.
Qed.

Lemma forallb_perm {A} (f : A -> bool) (l1 l2 : list A) :
  l1 ≡ₚ l2 -> forallb f l1 = forallb f l2.
Proof.
  induction 1; cbn; try congruence.
  - now rewrite !andb_assoc, (andb_comm (f y)).
Qed.

Lemma aor_ok_in_order a :
  aor_ok a = true ->
  size_ok (size (_bindings a)) = true
  /\ forallb binding_ok (in_order (_bindings a)) = true.
Proof.
  unfold aor_ok. rewrite andb_true_iff. intros [Hs Hb]. split; [assumption|].
  now rewrite (forallb_perm _ _ _ (in_order_perm _)).
Qed.

(** The round trip with the stream it leaves: everything is consumed and
    no state bit is set. *)
Lemma deserialize_stream_serialized a :
  aor_ok a = true ->
  deserialize_stream (serialize_aor a)
  = Returned (store_all AoR_new (in_order (_bindings a)), iss_open "").
Proof.
  intros Hok. apply aor_ok_in_order in Hok as [Hsize Hall].
  unfold deserialize_stream, serialize_aor.
  rewrite (read_uninit_int_write _ _ (size_ok_in_range _ Hsize)).
  cbn [use_int]. rewrite bind_Returned, (size_ok_wrap _ Hsize), Nat2Z.id.
  rewrite <- in_order_length.
  rewrite <- (append_nil_r (serialize_bindings _)).
  now apply deserialize_loop_serialized.
Qed.

Lemma AoR_eq (a b : AoR) : _bindings a = _bindings b -> _cas a = _cas b -> a = b.
Proof. destruct a, b; cbn; intros -> ->; reflexivity. Qed.

Lemma deserialize_serialized a :
  aor_ok a = true -> deserialize_aor (serialize_aor a) = Returned (set_cas a 0).
Proof.
  intros Hok. unfold deserialize_aor. rewrite (deserialize_stream_serialized _ Hok).
  rewrite bind_Returned. f_equal. apply AoR_eq.
  - apply store_all_in_order.
  - now rewrite store_all_cas.
Qed.

(** ** Records cut short by their last character *)

Lemma chop_snoc (s : string) c : chop (s +:+ String c "") = s.
Proof.
  induction s as [|c0 s IH]; [reflexivity|].
  rewrite append_cons. cbn [chop]. rewrite IH.
  destruct s; reflexivity.
Qed.

Lemma prefix_chop (s : string) : String.prefix (chop s) s = true.
Proof.
  induction s as [|c s IH]; [reflexivity|].
  destruct s as [|c' s]; [reflexivity|].
  change (chop (String c (String c' s))) with (String c (chop (String c' s))).
  cbn [String.prefix]. destruct (ascii_dec c c); [exact IH | congruence].
Qed.

Lemma length_chop (s : string) :
  String.length (chop s) = Nat.pred (String.length s).
Proof.
  induction s as [|c s IH]; [reflexivity|].
  destruct s as [|c' s]; [reflexivity|].
  change (chop (String c (String c' s))) with (String c (chop (String c' s))).
  cbn [String.length] in *. now rewrite IH.
Qed.

Lemma chop_truncation (s : string) : s <> "" -> truncation_of (chop s) s.
Proof.
  intros Hne. split; [apply prefix_chop|].
  intros Heq. apply (f_equal String.length) in Heq. rewrite length_chop in Heq.
  destruct s; [congruence | cbn in Heq; lia].
Qed.

Lemma serialize_bindings_app l1 l2 :
  serialize_bindings (l1 ++ l2) = serialize_bindings l1 +:+ serialize_bindings l2.
Proof.
  induction l1 as [|kb l1 IH]; [reflexivity|].
  cbn [app serialize_bindings]. now rewrite IH, append_assoc.
Qed.

Lemma serialize_paths_app hs1 hs2 :
  serialize_paths (hs1 ++ hs2) = serialize_paths hs1 +:+ serialize_paths hs2.
Proof.
  induction hs1 as [|h hs1 IH]; [reflexivity|].
  cbn [app serialize_paths]. now rewrite IH, append_assoc.
Qed.

Lemma scan_delim_none (s : string) :
  cstring_ok s = true -> scan_delim NUL s = None.
Proof.
  induction s as [|c s IH]; [reflexivity|].
  cbn [cstring_ok scan_delim]. intros [Hc Hs]%andb_true_iff.
  apply negb_true_iff in Hc. now rewrite Hc, (IH Hs).
Qed.

(** The last string of a record without its terminator: [getline] runs
    into the end of the stream and still delivers the string. *)
Lemma getline_unterminated (s old : string) :
  cstring_ok s = true -> (getline (iss_open s) old).1 = s.
Proof.
  intros Hs. unfold getline, iss_open.
  cbn [iss_good iss_eof iss_fail iss_rest negb andb].
  now rewrite (scan_delim_none _ Hs).
Qed.

Lemma read_paths_unterminated hs h : forall olds,
  forallb cstring_ok hs = true -> cstring_ok h = true ->
  length olds = S (length hs) ->
  (read_paths olds (iss_open (serialize_paths hs +:+ h))).1 = hs ++ [h].
Proof.
  induction hs as [|h0 hs IH]; intros olds Hhs Hh Hlen.
  - destruct olds as [|o [|o' olds]]; try discriminate.
    cbn [serialize_paths read_paths]. rewrite append_nil_l.
    pose proof (getline_unterminated h o Hh) as Hg.
    destruct (getline (iss_open h) o) as [h' iss']. cbn in Hg. now subst h'.
  - destruct olds as [|o olds]; [discriminate|].
    cbn [forallb] in Hhs. apply andb_true_iff in Hhs as [Hh0 Hhs].
    cbn [serialize_paths read_paths].
    rewrite !append_assoc, (getline_cstr _ _ _ Hh0).
    specialize (IH olds Hhs Hh ltac:(now inversion Hlen)).
    destruct (read_paths olds _) as [hs' iss']. cbn in IH |- *. now rewrite IH.
Qed.

Lemma forallb_app_true {A} (f : A -> bool) l1 l2 :
  forallb f (l1 ++ l2) = true -> forallb f l1 = true /\ forallb f l2 = true.
Proof. rewrite forallb_app. apply andb_true_iff. Qed.

Lemma deserialize_binding_chopped a k b hs h :
  binding_ok (k, b) = true -> _path_headers b = hs ++ [h] ->
  exists iss',
    deserialize_binding a (iss_open (chop (serialize_binding (k, b))))
    = Returned (store_binding a k b, iss').
Proof.
  destruct b as [uri cid cseq expires priority params paths].
  unfold binding_ok. cbn [fst snd _uri _cid _cseq _expires _priority _params _path_headers].
  rewrite !andb_true_iff, !in_rangeb_true.
  intros [[[[[[[[[Hk Huri] Hcid] Hcseq] Hexp] Hprio] Hnp] Hps] Hnh] Hhs] ->.
  apply forallb_app_true in Hhs as [Hhs Hh]. cbn [forallb] in Hh.
  rewrite andb_true_r in Hh.
  unfold serialize_binding.
  cbn [fst snd _uri _cid _cseq _expires _priority _params _path_headers].
  rewrite serialize_paths_app. cbn [serialize_paths].
  rewrite append_nil_r. unfold write_cstr at 4.
  rewrite <- !append_assoc, chop_snoc, !append_assoc.
  unfold deserialize_binding.
  rewrite (getline_cstr _ _ _ Hk).
  pose proof (store_after_get a k) as Hst.
  destruct (get_binding a k) as [b a'] eqn:Hget. cbn [snd] in Hst.
  rewrite (getline_cstr _ _ _ Huri), (getline_cstr _ _ _ Hcid).
  rewrite (read_int_write _ _ _ Hcseq), (read_int_write _ _ _ Hexp),
    (read_int_write _ _ _ Hprio).
  rewrite (read_uninit_int_write _ _ (size_ok_in_range _ Hnp)).
  cbn [use_int]. rewrite bind_Returned.
  destruct (list_resize_size (length params) ("", "") (_params b) Hnp)
    as (ps0 & -> & Hlen0).
  rewrite bind_Returned, (read_params_serialized _ _ _ Hps Hlen0).
  rewrite (read_int_write _ _ _ (size_ok_in_range _ Hnh)).
  destruct (list_resize_size (length (hs ++ [h])) "" (_path_headers b) Hnh)
    as (hs0 & -> & Hlen1).
  rewrite bind_Returned.
  rewrite length_app, Nat.add_1_r in Hlen1.
  pose proof (read_paths_unterminated hs h hs0 Hhs Hh Hlen1) as Hrd.
  destruct (read_paths hs0 _) as [hs' iss']. cbn [fst] in Hrd. subst hs'.
  exists iss'. now rewrite Hst.
Qed.

Lemma deserialize_loop_add n m : forall a iss,
  deserialize_loop (n + m) a iss
  = deserialize_loop n a iss ≫= (fun r => deserialize_loop m r.1 r.2).
Proof.
  induction n as [|n IH]; intros a iss.
  - reflexivity.
  - cbn [Nat.add deserialize_loop].
    destruct (deserialize_binding a iss) as [[a' iss']| |]; try reflexivity.
    rewrite !bind_Returned. apply IH.
Qed.

Lemma serialize_aor_nonempty a : serialize_aor a <> "".
Proof. unfold serialize_aor, write_int. cbn. discriminate. Qed.

Lemma deserialize_chopped a l kb hs h :
  aor_ok a = true ->
  in_order (_bindings a) = l ++ [kb] -> _path_headers kb.2 = hs ++ [h] ->
  deserialize_aor (chop (serialize_aor a)) = Returned (set_cas a 0).
Proof.
  intros Hok Hl Hpaths.
  pose proof (store_all_in_order (_bindings a)) as Hall.
  apply aor_ok_in_order in Hok as [Hsize Hbs].
  rewrite Hl in Hbs, Hall. apply forallb_app_true in Hbs as [Hbl Hkb].
  cbn [forallb] in Hkb. rewrite andb_true_r in Hkb.
  unfold deserialize_aor, deserialize_stream, serialize_aor.
  rewrite Hl, serialize_bindings_app. cbn [serialize_bindings].
  rewrite append_nil_r.
  destruct kb as [k b]. cbn [snd] in Hpaths.
  assert (Hsplit : serialize_binding (k, b)
                   = chop (serialize_binding (k, b)) +:+ String NUL "").
  { assert (Hbody : exists body, serialize_binding (k, b) = body +:+ String NUL "").
    { unfold serialize_binding. cbn [fst snd].
      rewrite Hpaths, serialize_paths_app.
      cbn [serialize_paths]. rewrite append_nil_r. unfold write_cstr at 4.
      rewrite <- !append_assoc. eauto. }
    destruct Hbody as [body ->]. now rewrite chop_snoc. }
  rewrite Hsplit at 1. rewrite <- !append_assoc, chop_snoc, !append_assoc.
  rewrite (read_uninit_int_write _ _ (size_ok_in_range _ Hsize)).
  cbn [use_int]. rewrite bind_Returned, (size_ok_wrap _ Hsize), Nat2Z.id.
  rewrite <- in_order_length, Hl, length_app. cbn [length].
  rewrite deserialize_loop_add, (deserialize_loop_serialized _ _ _ Hbl).
  rewrite bind_Returned. cbn [fst snd deserialize_loop].
  destruct (deserialize_binding_chopped (store_all AoR_new l) k b hs h Hkb Hpaths)
    as [iss' ->].
  rewrite !bind_Returned. f_equal. apply AoR_eq.
  - transitivity (_bindings a); [|reflexivity].
    rewrite <- Hall. unfold store_all. now rewrite foldl_app.
  - cbn [store_binding _cas set_cas]. now rewrite store_all_cas.
Qed.

(** ** The loop of [expire_bindings] *)

Section ExpireLoop.
Variable now : Z.

Lemma expire_fold_absent l : forall mx (m : gmap string Binding) k,
  m !! k = None -> (foldl (expire_step now) (mx, m) l).2 !! k = None.
Proof.
  induction l as [|[k0 b0] l IH]; intros mx m k Hk; [exact Hk|].
  cbn [foldl]. unfold expire_step at 2. cbn [fst snd].
  destruct (_expires b0 <=? now); apply IH; [|exact Hk].
  destruct (decide (k0 = k)) as [->|Hne].
  - apply lookup_delete_eq.
  - now rewrite lookup_delete_ne.
Qed.

Lemma expire_fold_expired l : forall mx (m : gmap string Binding) k b,
  (k, b) ∈ l -> _expires b <= now ->
  (foldl (expire_step now) (mx, m) l).2 !! k = None.
Proof.
  induction l as [|[k0 b0] l IH]; intros mx m k b Hin Hexp.
  - now apply elem_of_nil in Hin.
  - cbn [foldl]. unfold expire_step at 2. cbn [fst snd].
    apply elem_of_cons in Hin as [Heq|Hin].
    + inversion Heq; subst k0 b0.
      destruct (Z.leb_spec (_expires b) now); [|lia].
      apply expire_fold_absent, lookup_delete_eq.
    + destruct (_expires b0 <=? now); eapply IH; eauto.
Qed.

Lemma expire_fold_kept l : forall mx (m : gmap string Binding) k,
  (forall b, (k, b) ∈ l -> now < _expires b) ->
  (foldl (expire_step now) (mx, m) l).2 !! k = m !! k.
Proof.
  induction l as [|[k0 b0] l IH]; intros mx m k Hall; [reflexivity|].
  cbn [foldl]. unfold expire_step at 2. cbn [fst snd].
  assert (Hl : forall b, (k, b) ∈ l -> now < _expires b).
  { intros b Hb. apply Hall. now apply elem_of_cons; right. }
  destruct (Z.leb_spec (_expires b0) now) as [Hle|Hgt]; rewrite (IH _ _ _ Hl).
  - destruct (decide (k0 = k)) as [->|Hne].
    + specialize (Hall b0 ltac:(apply elem_of_cons; now left)). lia.
    + now rewrite lookup_delete_ne.
  - reflexivity.
Qed.

Lemma expire_fold_max_lower l : forall mx (m : gmap string Binding),
  mx <= (foldl (expire_step now) (mx, m) l).1.
Proof.
  induction l as [|[k0 b0] l IH]; intros mx m; [cbn; lia|].
  cbn [foldl]. unfold expire_step at 2. cbn [fst snd].
  destruct (_expires b0 <=? now); [apply IH|].
  destruct (Z.gtb_spec (_expires b0) mx); etransitivity; [|apply IH| |apply IH]; lia.
Qed.

Lemma expire_fold_max_upper l : forall mx (m : gmap string Binding) k b,
  (k, b) ∈ l -> now < _expires b ->
  _expires b <= (foldl (expire_step now) (mx, m) l).1.
Proof.
  induction l as [|[k0 b0] l IH]; intros mx m k b Hin Hexp.
  - now apply elem_of_nil in Hin.
  - cbn [foldl]. unfold expire_step at 2. cbn [fst snd].
    apply elem_of_cons in Hin as [Heq|Hin].
    + inversion Heq; subst k0 b0.
      destruct (Z.leb_spec (_expires b) now); [lia|].
      destruct (Z.gtb_spec (_expires b) mx);
        (etransitivity; [|apply expire_fold_max_lower]); lia.
    + destruct (_expires b0 <=? now); eapply IH; eauto.
Qed.

Lemma expire_fold_max_attained l : forall mx (m : gmap string Binding),
  (foldl (expire_step now) (mx, m) l).1 = mx
  \/ exists k b, (k, b) ∈ l /\ now < _expires b
                 /\ (foldl (expire_step now) (mx, m) l).1 = _expires b.
Proof.
  induction l as [|[k0 b0] l IH]; intros mx m; [now left|].
  cbn [foldl]. unfold expire_step at 2 4. cbn [fst snd].
  destruct (Z.leb_spec (_expires b0) now) as [Hle|Hgt].
  - destruct (IH mx (delete k0 m)) as [Heq|(k & b & Hin & Hexp & Heq)];
      [now left|right].
    exists k, b. split; [apply elem_of_cons; now right|]. now split.
  - destruct (Z.gtb_spec (_expires b0) mx) as [Hnew|Hold].
    + destruct (IH (_expires b0) m) as [Heq|(k & b & Hin & Hexp & Heq)]; right.
      * exists k0, b0. split; [apply elem_of_cons; now left|]. now split.
      * exists k, b. split; [apply elem_of_cons; now right|]. now split.
    + destruct (IH mx m) as [Heq|(k & b & Hin & Hexp & Heq)]; [now left|right].
      exists k, b. split; [apply elem_of_cons; now right|]. now split.
Qed.

End ExpireLoop.

Lemma expire_bindings_cas a now : _cas (expire_bindings a now).2 = _cas a.
Proof.
  unfold expire_bindings. now destruct (foldl _ _ _).
Qed.

Lemma expire_bindings_lookup a now k b :
  _bindings (expire_bindings a now).2 !! k = Some b
  <-> _bindings a !! k = Some b /\ now < _expires b.
Proof.
  unfold expire_bindings.
  pose proof (expire_fold_expired now (in_order (_bindings a)) now (_bindings a) k) as Hexp.
  pose proof (expire_fold_kept now (in_order (_bindings a)) now (_bindings a) k) as Hkept.
  destruct (foldl _ _ _) as [mx m]. cbn [fst snd _bindings] in *.
  destruct (_bindings a !! k) as [b0|] eqn:Hk.
  - destruct (Z.le_gt_cases (_expires b0) now) as [Hle|Hgt].
    + rewrite (Hexp b0); [|now apply in_order_lookup|exact Hle].
      split; [discriminate|]. intros [[= ->] ?]. lia.
    + rewrite Hkept.
      * split; [intros [= ->]; now split | now intros [? ?]].
      * intros b' Hb'. apply in_order_lookup in Hb'.
        rewrite Hk in Hb'. now inversion Hb'; subst.
  - rewrite Hkept.
    + split; [discriminate | now intros [? ?]].
    + intros b' Hb'. apply in_order_lookup in Hb'. congruence.
Qed.

Lemma expire_bindings_filter a now :
  _bindings (expire_bindings a now).2
  = filter (fun kb => now < _expires kb.2) (_bindings a).
Proof.
  apply map_eq. intros k. apply option_eq. intros b.
  rewrite expire_bindings_lookup, map_lookup_filter_Some. reflexivity.
Qed.

Lemma expire_bindings_max a now :
  let mx := (expire_bindings a now).1 in
  let post := _bindings (expire_bindings a now).2 in
  now <= mx
  /\ (forall k b, post !! k = Some b -> _expires b <= mx)
  /\ (mx = now \/ exists k b, post !! k = Some b /\ mx = _expires b).
Proof.
  cbn zeta.
  pose proof (expire_bindings_lookup a now) as Hpost.
  unfold expire_bindings in *.
  pose proof (expire_fold_max_lower now (in_order (_bindings a)) now (_bindings a)) as Hlo.
  pose proof (expire_fold_max_upper now (in_order (_bindings a)) now (_bindings a)) as Hup.
  pose proof (expire_fold_max_attained now (in_order (_bindings a)) now (_bindings a)) as Hat.
  destruct (foldl _ _ _) as [mx m]. cbn [fst snd _bindings] in *.
  split; [exact Hlo|]. split.
  - intros k b Hb. apply Hpost in Hb as [Hb Hexp].
    apply (Hup k b); [now apply in_order_lookup | exact Hexp].
  - destruct Hat as [Heq|(k & b & Hin & Hexp & Heq)]; [now left|right].
    exists k, b. split; [|exact Heq].
    apply Hpost. split; [now apply in_order_lookup | exact Hexp].
Qed.

(* ===================================================================== *)
(** * 9. The registration store: the specification's properties          *)
(* ===================================================================== *)

Lemma Status_eqb_eq x y : Status_eqb x y = true <-> x = y.
Proof. destruct x, y; cbn; split; congruence. Qed.

Lemma expires_ok_lookup a k b :
  expires_ok a = true -> _bindings a !! k = Some b -> Int.in_range (_expires b).
Proof.
  unfold expires_ok. rewrite forallb_forall. intros Hall Hk.
  apply in_rangeb_true, (Hall (k, b)).
  apply list_elem_of_In, elem_of_map_to_list, Hk.
Qed.

(** C1 -- [set_aor_data] at time [now], for a time that is a non-negative
    [int] and expiry times that are [int]s: the AoR written (and left to
    the caller) holds exactly the bindings of the given one whose
    [_expires] is greater than [now], those with [_expires <= now] are
    removed; the expiry passed to the store's [set_data] is
    [max_expires - now], where [max_expires] is the larger of [now] and the
    greatest [_expires] among the bindings that remain, and so it is 0 when
    none remains. *)
Theorem set_aor_data_expires_and_ttl {St : Type} `{!Store St}
    (aor_id : string) (aor_data : AoR) (now : Z) (st : St) :
  0 <= now <= Int.max_signed ->
  expires_ok aor_data = true ->
  exists (post : AoR) (max_expires : Z),
    let ttl := max_expires - now in
    let r := set_data "reg" aor_id (serialize_aor post) (_cas aor_data) ttl st in
    set_aor_data aor_id aor_data now st = (Status_eqb r.1 OK, post, r.2)
    /\ (forall k b, _bindings post !! k = Some b
                    <-> _bindings aor_data !! k = Some b /\ now < _expires b)
    /\ now <= max_expires
    /\ (forall k b, _bindings post !! k = Some b -> _expires b <= max_expires)
    /\ (max_expires = now
        \/ exists k b, _bindings post !! k = Some b /\ max_expires = _expires b)
    /\ (_bindings post = ∅ -> ttl = 0).
Proof.
  intros Hnow Hexp.
  pose proof (expire_bindings_max aor_data now) as (Hlo & Hup & Hat).
  pose proof (expire_bindings_lookup aor_data now) as Hlk.
  pose proof (expire_bindings_cas aor_data now) as Hcas.
  unfold set_aor_data.
  destruct (expire_bindings aor_data now) as [mx post]. cbn [fst snd] in *.
  exists post, mx. cbn zeta.
  assert (Hmx : mx <= Int.max_signed).
  { destruct Hat as [->|(k & b & Hb & ->)]; [lia|].
    apply Hlk in Hb as [Hb _].
    apply (expires_ok_lookup _ _ _ Hexp) in Hb. unfold Int.in_range in Hb. lia. }
  assert (Hsub : Int.sub mx now = mx - now).
  { apply wrap_in_range. unfold Int.in_range, Int.min_signed, Int.max_signed in *. lia. }
  rewrite Hsub, Hcas.
  destruct (set_data "reg" aor_id (serialize_aor post) (_cas aor_data) (mx - now) st)
    as [status st'].
  cbn [fst snd].
  split; [reflexivity|]. split; [exact Hlk|]. split; [exact Hlo|].
  split; [exact Hup|]. split; [exact Hat|].
  intros Hempty. destruct Hat as [->|(k & b & Hb & _)]; [lia|].
  rewrite Hempty, lookup_empty in Hb. discriminate.
Qed.

(** The third scenario of the specification: bindings expiring at
    [now - 1] and [now + 60] written at [now = 1000] to a store held in
    memory. *)
Lemma set_aor_data_expires_and_ttl_witness :
  exists (post : AoR) (max_expires : Z),
    let ttl := max_expires - 1000 in
    let r := set_data "reg" "sip:alice@example.net" (serialize_aor post)
                      (_cas Samples.aor_two) ttl Samples.mem_two in
    set_aor_data "sip:alice@example.net" Samples.aor_two 1000 Samples.mem_two
    = (Status_eqb r.1 OK, post, r.2)
    /\ (forall k b, _bindings post !! k = Some b
                    <-> _bindings Samples.aor_two !! k = Some b /\ 1000 < _expires b)
    /\ 1000 <= max_expires
    /\ (forall k b, _bindings post !! k = Some b -> _expires b <= max_expires)
    /\ (max_expires = 1000
        \/ exists k b, _bindings post !! k = Some b /\ max_expires = _expires b)
    /\ (_bindings post = ∅ -> ttl = 0).
Proof.
  apply (set_aor_data_expires_and_ttl "sip:alice@example.net" Samples.aor_two 1000
           Samples.mem_two).
  - unfold Int.max_signed. lia.
  - vm_compute. reflexivity.
Defined.

(** The same scenario evaluated: the stale binding is gone, the other is
    kept, and the expiry sent to the store is 60. *)
Example set_aor_data_scenario :
  let '(ok, post, st') :=
    set_aor_data "sip:alice@example.net" Samples.aor_two 1000 Samples.mem_two in
  ok = true
  /\ map_to_list (_bindings post) = [("ua-2", Samples.binding_fresh)]
  /\ (snd <$> map_to_list (mem_entries st'))
     = [(serialize_aor Samples.aor_one, 6, 60)].
Proof. vm_compute. repeat split. Qed.

(** C2 (as amended) -- for every AoR whose strings hold no NUL character,
    whose numbers are [int]s and whose sizes fit an [int]:
    [deserialize_aor (serialize_aor a)] returns an AoR with exactly the
    bindings of [a] (the same identifiers, each with the same contact URI,
    Call-ID, CSeq, expiry, priority, parameter list and path list); its CAS
    is 0, the CAS not being part of the record, so it is [a] itself when
    the CAS of [a] is 0. *)
Theorem deserialize_serialize_round_trip (a : AoR) :
  aor_ok a = true ->
  exists a' : AoR,
    deserialize_aor (serialize_aor a) = Returned a'
    /\ _bindings a' = _bindings a
    /\ _cas a' = 0
    /\ (_cas a = 0 -> a' = a).
Proof.
  intros Hok. exists (set_cas a 0).
  split; [now apply deserialize_serialized|].
  split; [reflexivity|]. split; [reflexivity|].
  intros Hcas. apply AoR_eq; [reflexivity | cbn; congruence].
Qed.

Lemma deserialize_serialize_round_trip_witness :
  exists a' : AoR,
    deserialize_aor (serialize_aor Samples.aor_two) = Returned a'
    /\ _bindings a' = _bindings Samples.aor_two
    /\ _cas a' = 0
    /\ (_cas Samples.aor_two = 0 -> a' = Samples.aor_two).
Proof.
  apply (deserialize_serialize_round_trip Samples.aor_two).
  vm_compute. reflexivity.
Defined.

(** C2 as stated fails: a contact URI with a NUL character comes back cut
    at that character (and the members after it are read from the wrong
    place), and an AoR with a CAS other than 0 comes back with CAS 0. *)
Lemma round_trip_not_identity :
  (exists a' : AoR,
     deserialize_aor (serialize_aor Samples.aor_nul) = Returned a'
     /\ (_uri <$> _bindings a' !! "b1") = Some "sip:a"
     /\ (_cid <$> _bindings a' !! "b1") = Some "@x"
     /\ a' <> Samples.aor_nul)
  /\ deserialize_aor (serialize_aor Samples.aor_cas) = Returned AoR_new
  /\ AoR_new <> Samples.aor_cas.
Proof.
  split; [|split].
  - destruct (deserialize_aor (serialize_aor Samples.aor_nul)) as [a'| |] eqn:Hd;
      vm_compute in Hd; try discriminate.
    exists a'. injection Hd as <-. split; [reflexivity|].
    split; [vm_compute; reflexivity|split; [vm_compute; reflexivity|]].
    intros Heq. apply (f_equal (fun a => _uri <$> _bindings a !! "b1")) in Heq.
    vm_compute in Heq. discriminate.
  - vm_compute. reflexivity.
  - intros Heq. apply (f_equal _cas) in Heq. discriminate.
Qed.

(** C3 -- [get_aor_data] by the status of the store's [get_data]: on [OK]
    the deserialized AoR with the CAS the store returned; on [NOT_FOUND] a
    new AoR without bindings and with CAS 0; on [ERROR] the null
    pointer. *)
Theorem get_aor_data_by_status {St : Type} `{!Store St} (aor_id : string) (st : St) :
  let '(status, data, cas, st') := get_data "reg" aor_id st in
  (status = OK ->
     forall a, deserialize_aor data = Returned a ->
       get_aor_data aor_id st = (Returned (Some (set_cas a cas)), st')
       /\ _bindings (set_cas a cas) = _bindings a
       /\ _cas (set_cas a cas) = cas)
  /\ (status = NOT_FOUND ->
        get_aor_data aor_id st = (Returned (Some AoR_new), st')
        /\ _bindings AoR_new = ∅ /\ _cas AoR_new = 0)
  /\ (status = ERROR -> get_aor_data aor_id st = (Returned None, st')).
Proof.
  unfold get_aor_data.
  destruct (get_data "reg" aor_id st) as [[[status data] cas] st'].
  split; [|split].
  - intros -> a Ha. cbn [Status_eqb]. rewrite Ha. now rewrite bind_Returned.
  - intros ->. cbn [Status_eqb]. now repeat split.
  - intros ->. reflexivity.
Qed.

(** A read of a stored record, of an absent one, and a store that reports
    an error. *)
Lemma get_aor_data_by_status_witness :
  get_aor_data "sip:alice@example.net" Samples.mem_one
  = (Returned (Some (set_cas Samples.aor_one 3)), Samples.mem_one)
  /\ get_aor_data "sip:bob@example.net" Samples.mem_one
     = (Returned (Some AoR_new), Samples.mem_one)
  /\ get_aor_data "sip:bob@example.net" store_down = (Returned None, store_down).
Proof.
  split; [|split].
  - pose proof (get_aor_data_by_status "sip:alice@example.net" Samples.mem_one) as H.
    cbn in H. destruct H as (H & _ & _).
    apply (H eq_refl Samples.aor_one). vm_compute. reflexivity.
  - pose proof (get_aor_data_by_status "sip:bob@example.net" Samples.mem_one) as H.
    cbn in H. destruct H as (_ & H & _).
    apply (H eq_refl).
  - pose proof (get_aor_data_by_status "sip:bob@example.net" store_down) as H.
    cbn in H. destruct H as (_ & _ & H).
    apply (H eq_refl).
Defined.

(** C4 (as amended) -- the deserializer accepts every value the serializer
    produces (for an AoR the record format can carry), and it cannot tell
    a record that was cut short: when the last binding of the record has a
    path header, the record without its final character (the terminator of
    that header) is a truncation of the record that [deserialize_aor]
    accepts, returning the same AoR as for the whole record. *)
Theorem deserialize_accepts_written_and_truncated (a : AoR) :
  aor_ok a = true ->
  (exists a', deserialize_aor (serialize_aor a) = Returned a')
  /\ (forall kb, last (in_order (_bindings a)) = Some kb ->
                 _path_headers kb.2 <> [] ->
        truncation_of (chop (serialize_aor a)) (serialize_aor a)
        /\ deserialize_aor (chop (serialize_aor a))
           = deserialize_aor (serialize_aor a)).
Proof.
  intros Hok. split.
  - exists (set_cas a 0). now apply deserialize_serialized.
  - intros kb Hlast Hpath.
    split; [apply chop_truncation, serialize_aor_nonempty|].
    apply last_Some in Hlast as [l Hl].
    destruct (_path_headers kb.2) as [|h0 hs0] eqn:Hhs using rev_ind;
      [congruence|].
    rewrite (deserialize_serialized _ Hok).
    now apply (deserialize_chopped a l kb hs0 h0).
Qed.

Lemma deserialize_accepts_written_and_truncated_witness :
  (exists a', deserialize_aor (serialize_aor Samples.aor_two) = Returned a')
  /\ (forall kb, last (in_order (_bindings Samples.aor_two)) = Some kb ->
                 _path_headers kb.2 <> [] ->
        truncation_of (chop (serialize_aor Samples.aor_two))
                      (serialize_aor Samples.aor_two)
        /\ deserialize_aor (chop (serialize_aor Samples.aor_two))
           = deserialize_aor (serialize_aor Samples.aor_two)).
Proof.
  apply (deserialize_accepts_written_and_truncated Samples.aor_two).
  vm_compute. reflexivity.
Defined.

(** C4 as stated fails: the record of an AoR with one binding, cut before
    its last character, is accepted and yields that AoR.  (And a written
    record is not always accepted: with a NUL character at the end of a
    parameter name the parameter's value is read as the number of path
    headers, here -1, and [resize] throws.) *)
Lemma truncated_record_accepted :
  (size (_bindings Samples.aor_one) = 1%nat
   /\ truncation_of (chop (serialize_aor Samples.aor_one))
                    (serialize_aor Samples.aor_one)
   /\ deserialize_aor (chop (serialize_aor Samples.aor_one))
      = Returned Samples.aor_one)
  /\ deserialize_aor (serialize_aor Samples.aor_nul_param) = Throws.
Proof.
  split; [split; [vm_compute; reflexivity|split]|].
  - apply chop_truncation, serialize_aor_nonempty.
  - vm_compute. reflexivity.
  - vm_compute. reflexivity.
Qed.

(** C9 -- [AoR::get_binding]: a binding stored under the identifier is
    returned and the AoR stays as it is; otherwise a new, completely empty
    binding (no contact URI, no Call-ID, no parameters, no path headers)
    is inserted under the identifier and returned.  Afterwards the
    identifier is present, and a second call returns the same binding
    without changing the AoR. *)
Theorem get_binding_finds_or_creates (a : AoR) (binding_id : string) :
  (forall b, _bindings a !! binding_id = Some b ->
             get_binding a binding_id = (b, a))
  /\ (_bindings a !! binding_id = None ->
        get_binding a binding_id
        = (Binding_new, store_binding a binding_id Binding_new)
        /\ _uri Binding_new = "" /\ _cid Binding_new = ""
        /\ _params Binding_new = [] /\ _path_headers Binding_new = [])
  /\ _bindings (get_binding a binding_id).2 !! binding_id
     = Some (get_binding a binding_id).1
  /\ get_binding (get_binding a binding_id).2 binding_id
     = get_binding a binding_id.
Proof.
  unfold get_binding, store_binding.
  destruct (_bindings a !! binding_id) as [b0|] eqn:Hb.
  - split; [now intros b [= ->]|]. split; [discriminate|].
    cbn [fst snd]. rewrite Hb. now split.
  - split; [discriminate|]. split; [now repeat split|].
    cbn [fst snd _bindings]. rewrite lookup_insert_eq. now split.
Qed.

Lemma get_binding_finds_or_creates_witness :
  get_binding Samples.aor_one "ua-2" = (Samples.binding_fresh, Samples.aor_one)
  /\ get_binding Samples.aor_one "ua-9"
     = (Binding_new, store_binding Samples.aor_one "ua-9" Binding_new).
Proof.
  split.
  - exact (proj1 (get_binding_finds_or_creates Samples.aor_one "ua-2")
             Samples.binding_fresh eq_refl).
  - exact (proj1 (proj1 (proj2 (get_binding_finds_or_creates Samples.aor_one "ua-9"))
                    eq_refl)).
Defined.

(** C10 -- [set_aor_data] returns true exactly when the store's [set_data]
    returns [OK]; for [CONTENTION] as for [ERROR] it returns false, so the
    two cannot be told apart by the result. *)
Theorem set_aor_data_true_iff_OK {St : Type} `{!Store St}
    (aor_id : string) (aor_data : AoR) (now : Z) (st : St) :
  let post := (expire_bindings aor_data now).2 in
  let max_expires := (expire_bindings aor_data now).1 in
  let status := (set_data "reg" aor_id (serialize_aor post) (_cas post)
                          (Int.sub max_expires now) st).1 in
  let result := (set_aor_data aor_id aor_data now st).1.1 in
  (result = true <-> status = OK)
  /\ (status = CONTENTION -> result = false)
  /\ (status = ERROR -> result = false).
Proof.
  cbn zeta. unfold set_aor_data.
  destruct (expire_bindings aor_data now) as [mx post]. cbn [fst snd].
  destruct (set_data "reg" aor_id (serialize_aor post) (_cas post) (Int.sub mx now) st)
    as [status st']. cbn [fst snd].
  split; [apply Status_eqb_eq|]. split; now intros ->.
Qed.

(** A write with the version that was read succeeds; a write with a stale
    version meets [CONTENTION] and gives false, as does a write to a store
    that reports [ERROR]. *)
Lemma set_aor_data_true_iff_OK_witness :
  (set_aor_data "sip:alice@example.net" Samples.aor_two 1000 Samples.mem_two).1.1 = true
  /\ (set_aor_data "sip:alice@example.net" Samples.aor_two 1000 Samples.mem_one).1.1 = false
  /\ (set_aor_data "sip:alice@example.net" Samples.aor_two 1000 store_down).1.1 = false.
Proof.
  split; [|split].
  - refine (proj2 (proj1 (set_aor_data_true_iff_OK "sip:alice@example.net"
                            Samples.aor_two 1000 Samples.mem_two)) _).
    vm_compute. reflexivity.
  - refine (proj1 (proj2 (set_aor_data_true_iff_OK "sip:alice@example.net"
                            Samples.aor_two 1000 Samples.mem_one)) _).
    vm_compute. reflexivity.
  - refine (proj2 (proj2 (set_aor_data_true_iff_OK "sip:alice@example.net"
                            Samples.aor_two 1000 store_down)) _).
    vm_compute. reflexivity.
Defined.

(* ===================================================================== *)
(** * 10. The thread dispatcher: the specification's properties          *)
(* ===================================================================== *)

Import Dispatcher.

Lemma on_exception_actions d rdata :
  on_exception d rdata
  = if num_worker_threads d =? 1
    then (crash_response rdata ++ [process_exit 1], process_ended)
    else (crash_response rdata, returns tt).
Proof.
  unfold on_exception, crash_response.
  destruct (rdata_msg_type rdata), (rdata_method rdata); reflexivity.
Qed.

(** C5 -- a crash of the processing of a dequeued message is caught by the
    worker.  A request other than an ACK is answered statelessly with 500
    and a Retry-After of 600 (nothing is sent for an ACK or a response).
    With exactly one worker thread the process is then ended ([exit(1)])
    and nothing more is done; otherwise the worker finishes with the
    message and goes on with the events that follow. *)
Theorem worker_survives_crash_unless_alone (env : environment) (d : dispatcher)
    (me : MessageEvent) (rdata : pjsip_rx_data) (popped : list worker_thread_qe) :
  me_rdata me = Some rdata ->
  processing_crashes env rdata = true ->
  crash_response rdata
  = (if match rdata_msg_type rdata with PJSIP_REQUEST_MSG => true | _ => false end
        && negb (pjsip_method_eqb (rdata_method rdata) PJSIP_ACK_METHOD)
     then [respond_stateless rdata 500 (Some 600)] else [])
  /\ (num_worker_threads d = 1 ->
        worker_thread env d (MESSAGE me :: popped)
        = (endpt_process_rx_data rdata :: crash_response rdata ++ [process_exit 1],
           process_ended))
  /\ (num_worker_threads d <> 1 ->
        worker_thread env d (MESSAGE me :: popped)
        = ((endpt_process_rx_data rdata :: crash_response rdata
              ++ after_message env me rdata)
             ++ (worker_thread env d popped).1,
           (worker_thread env d popped).2)).
Proof.
  intros Hme Hcrash. split; [|split].
  - unfold crash_response.
    destruct (rdata_msg_type rdata), (rdata_method rdata); reflexivity.
  - intros Hone. cbn [worker_thread worker_handle].
    rewrite Hme, Hcrash, on_exception_actions, Hone. reflexivity.
  - intros Hmany. cbn [worker_thread worker_handle].
    rewrite Hme, Hcrash, on_exception_actions.
    destruct (Z.eqb_spec (num_worker_threads d) 1); [contradiction|].
    now destruct (worker_thread env d popped).
Qed.

(** The sixth scenario of the specification: an INVITE that crashes its
    processing, followed by a callback, with two workers. *)
Lemma worker_survives_crash_unless_alone_witness :
  worker_thread Samples.env_crashing Samples.dispatcher_two_workers
    [MESSAGE {| me_rdata := Some Samples.rdata_invite |}; CALLBACK 7]
  = ([endpt_process_rx_data Samples.rdata_invite;
      respond_stateless Samples.rdata_invite 500 (Some 600);
      rx_data_free_cloned Samples.rdata_invite;
      latency_accumulate 250; load_monitor_request_complete 250;
      callback_run 7],
     returns 0).
Proof.
  refine (proj2 (proj2 (worker_survives_crash_unless_alone Samples.env_crashing
            Samples.dispatcher_two_workers {| me_rdata := Some Samples.rdata_invite |}
            Samples.rdata_invite [CALLBACK 7] eq_refl eq_refl)) _).
  vm_compute. discriminate.
Defined.

(** The same crash with the single worker of the initial setting, and a
    crashing ACK with two workers. *)
Example worker_crash_single_and_ack :
  worker_thread Samples.env_crashing dispatcher_initial
    [MESSAGE {| me_rdata := Some Samples.rdata_invite |}; CALLBACK 7]
  = ([endpt_process_rx_data Samples.rdata_invite;
      respond_stateless Samples.rdata_invite 500 (Some 600);
      process_exit 1],
     process_ended)
  /\ worker_thread Samples.env_crashing Samples.dispatcher_two_workers
       [MESSAGE {| me_rdata := Some Samples.rdata_ack |}]
     = ([endpt_process_rx_data Samples.rdata_ack;
         rx_data_free_cloned Samples.rdata_ack;
         latency_accumulate 250; load_monitor_request_complete 250],
        returns 0).
Proof. split; reflexivity. Qed.

(** [init_thread_dispatcher] called with a number that is not negative:
    the vector is resized to it, the threshold on the queue is
    [MSG_Q_DEADLOCK_TIME], the number is stored, and [PJ_SUCCESS] is
    returned. *)
Lemma init_thread_dispatcher_nonneg (v : thread_vector) (d : dispatcher) (n : Z) :
  0 <= n ->
  init_thread_dispatcher v d n
  = Some (resize (Z.to_nat n) None v,
          {| event_q := {| q_items := q_items (event_q d);
                           q_deadlock_threshold := Some MSG_Q_DEADLOCK_TIME |};
             num_worker_threads := n |},
          PJ_SUCCESS).
Proof.
  intros Hn. unfold init_thread_dispatcher, resize_worker_threads.
  destruct (Z.ltb_spec n 0) as [Hlt|_]; [lia|]. reflexivity.
Qed.

(** [init_thread_dispatcher] called with a negative number: the resize
    throws, and the function is left before the threshold is set. *)
Lemma init_thread_dispatcher_negative (v : thread_vector) (d : dispatcher) (n : Z) :
  n < 0 -> init_thread_dispatcher v d n = None.
Proof.
  intros Hn. unfold init_thread_dispatcher, resize_worker_threads.
  destruct (Z.ltb_spec n 0) as [_|Hge]; [reflexivity|lia].
Qed.

(** C6 -- on every received message [is_deadlocked()] is asked before
    anything is cloned or queued.  When it answers true the process is
    aborted: the message is neither cloned nor pushed and the queue stays
    as it was.  A push happens only after the answer false.  The threshold
    set on the queue is [MSG_Q_DEADLOCK_TIME], 4000 milliseconds:
    [init_thread_dispatcher] called with a number of workers that is not
    negative resizes the vector of workers, sets that threshold, stores
    the number and returns [PJ_SUCCESS], so that whenever it returns the
    threshold on the queue is 4000; called with a negative number it is
    left by the exception of the resize, before the threshold is set. *)
Theorem deadlock_checked_before_enqueue (env : environment) (d : dispatcher)
    (rdata : pjsip_rx_data) :
  (exists rest,
     (threads_on_rx_msg env d rdata).1.1
     = sas_report_event (rdata_trail rdata) BEGIN_THREAD_DISPATCHER 0
       :: q_is_deadlocked (is_deadlocked env) :: rest
     /\ (forall b, q_is_deadlocked b ∉ rest))
  /\ (is_deadlocked env = true ->
        threads_on_rx_msg env d rdata
        = ([sas_report_event (rdata_trail rdata) BEGIN_THREAD_DISPATCHER 0;
            q_is_deadlocked true; deadlock_log; process_abort],
           d, process_ended))
  /\ (forall qe, q_push qe ∈ (threads_on_rx_msg env d rdata).1.1 ->
        is_deadlocked env = false)
  /\ MSG_Q_DEADLOCK_TIME = 4000
  /\ (forall v n, 0 <= n ->
        init_thread_dispatcher v d n
        = Some (resize (Z.to_nat n) None v,
                {| event_q := {| q_items := q_items (event_q d);
                                 q_deadlock_threshold := Some 4000 |};
                   num_worker_threads := n |},
                PJ_SUCCESS))
  /\ (forall v n v' d' status,
        init_thread_dispatcher v d n = Some (v', d', status) ->
        0 <= n /\ q_deadlock_threshold (event_q d') = Some 4000)
  /\ (forall v n, n < 0 -> init_thread_dispatcher v d n = None).
Proof.
  assert (Hinit :
    (forall v n, 0 <= n ->
        init_thread_dispatcher v d n
        = Some (resize (Z.to_nat n) None v,
                {| event_q := {| q_items := q_items (event_q d);
                                 q_deadlock_threshold := Some 4000 |};
                   num_worker_threads := n |},
                PJ_SUCCESS))
    /\ (forall v n v' d' status,
        init_thread_dispatcher v d n = Some (v', d', status) ->
        0 <= n /\ q_deadlock_threshold (event_q d') = Some 4000)
    /\ (forall v n, n < 0 -> init_thread_dispatcher v d n = None)).
  { split; [|split].
    - intros v n Hn. now rewrite init_thread_dispatcher_nonneg.
    - intros v n v' d' status Hret.
      destruct (Z.lt_ge_cases n 0) as [Hlt|Hge].
      + now rewrite init_thread_dispatcher_negative in Hret.
      + rewrite init_thread_dispatcher_nonneg in Hret by exact Hge.
        injection Hret as _ <- _. split; [exact Hge|reflexivity].
    - intros v n Hn. now apply init_thread_dispatcher_negative. }
  revert Hinit.
  unfold threads_on_rx_msg.
  destruct (is_deadlocked env) eqn:Hdl; intros Hinit.
  - split; [|split; [|split; [|split]]]; try exact Hinit; try reflexivity.
    + eexists. split; [reflexivity|]. intros b Hb.
      repeat (apply elem_of_cons in Hb as [Hb|Hb]; [discriminate|]).
      now apply elem_of_nil in Hb.
    + intros qe Hin. cbn in Hin.
      repeat (apply elem_of_cons in Hin as [Hin|Hin]; [discriminate|]).
      now apply elem_of_nil in Hin.
  - destruct (pjsip_rx_data_clone env rdata) as [status clone].
    destruct (negb (status =? PJ_SUCCESS));
      (split; [|split; [|split; [|split]]]); try exact Hinit;
      try reflexivity; try discriminate;
      eexists; (split; [reflexivity|]); intros b Hb;
      repeat (apply elem_of_cons in Hb as [Hb|Hb]; [discriminate|]);
      now apply elem_of_nil in Hb.
Qed.

Lemma deadlock_checked_before_enqueue_witness :
  threads_on_rx_msg Samples.env_deadlocked
    Samples.dispatcher_two_workers Samples.rdata_invite
  = ([sas_report_event 42 BEGIN_THREAD_DISPATCHER 0;
      q_is_deadlocked true; deadlock_log; process_abort],
     Samples.dispatcher_two_workers, process_ended)
  /\ init_thread_dispatcher [Some 7%nat] Samples.dispatcher_two_workers 3
     = Some ([Some 7%nat; None; None],
             {| event_q := {| q_items := []; q_deadlock_threshold := Some 4000 |};
                num_worker_threads := 3 |},
             0)
  /\ init_thread_dispatcher [Some 7%nat] Samples.dispatcher_two_workers (-1) = None.
Proof.
  pose proof (deadlock_checked_before_enqueue Samples.env_deadlocked
                Samples.dispatcher_two_workers Samples.rdata_invite)
    as (_ & Habort & _ & _ & Hinit & _ & Hthrows).
  split; [exact (Habort eq_refl)|].
  split; [exact (Hinit [Some 7%nat] 3 ltac:(discriminate))
         |exact (Hthrows [Some 7%nat] (-1) eq_refl)].
Defined.

(** C8 -- the receive hook drops no message unannounced: on every path
    its first call reports the SAS event that carries the message's trail.
    When cloning fails the message is dropped: nothing is pushed, the
    queue stays as it was and the hook returns [PJ_TRUE], after the SAS
    event. *)
Theorem rx_msg_reports_before_any_drop (env : environment) (d : dispatcher)
    (rdata : pjsip_rx_data) :
  (exists rest,
     (threads_on_rx_msg env d rdata).1.1
     = sas_report_event (rdata_trail rdata) BEGIN_THREAD_DISPATCHER 0 :: rest)
  /\ (is_deadlocked env = false ->
      (pjsip_rx_data_clone env rdata).1 <> PJ_SUCCESS ->
        threads_on_rx_msg env d rdata
        = ([sas_report_event (rdata_trail rdata) BEGIN_THREAD_DISPATCHER 0;
            q_is_deadlocked false; stop_watch_start;
            rx_data_clone rdata (pjsip_rx_data_clone env rdata).1],
           d, returns PJ_TRUE))
  /\ (forall e, (threads_on_rx_msg env d rdata).2 = returns e -> e = PJ_TRUE).
Proof.
  unfold threads_on_rx_msg.
  destruct (is_deadlocked env) eqn:Hdl.
  - split; [eexists; reflexivity|]. split; [discriminate|]. discriminate.
  - destruct (pjsip_rx_data_clone env rdata) as [status clone]. cbn [fst].
    destruct (Z.eqb_spec status PJ_SUCCESS) as [Heq|Hne]; cbn [negb].
    + split; [eexists; reflexivity|]. split; [contradiction|].
      now intros e [= <-].
    + split; [eexists; reflexivity|]. split; [reflexivity|].
      now intros e [= <-].
Qed.

Lemma rx_msg_reports_before_any_drop_witness :
  threads_on_rx_msg Samples.env_clone_fails Samples.dispatcher_two_workers
    Samples.rdata_invite
  = ([sas_report_event 42 BEGIN_THREAD_DISPATCHER 0;
      q_is_deadlocked false; stop_watch_start;
      rx_data_clone Samples.rdata_invite 70007],
     Samples.dispatcher_two_workers, returns PJ_TRUE).
Proof.
  refine (proj1 (proj2 (rx_msg_reports_before_any_drop Samples.env_clone_fails
            Samples.dispatcher_two_workers Samples.rdata_invite)) eq_refl _).
  vm_compute. discriminate.
Defined.

(* ===================================================================== *)
(** * 11. Response consolidation: the best-response rule                 *)
(* ===================================================================== *)

Import Consolidation.

Lemma outranks_spec a b :
  outranks a b = true
  <-> class_rank b < class_rank a \/ (class_rank a = class_rank b /\ a < b).
Proof.
  unfold outranks. rewrite orb_true_iff, andb_true_iff, !Z.ltb_lt, Z.eqb_eq.
  reflexivity.
Qed.

Lemma outranks_false a b :
  outranks a b = false
  <-> class_rank a < class_rank b \/ (class_rank a = class_rank b /\ b <= a).
Proof.
  rewrite <- not_true_iff_false, outranks_spec. lia.
Qed.

Lemma outranks_irrefl a : outranks a a = false.
Proof. apply outranks_false. lia. Qed.

Lemma consolidated_new n : consolidated (context_new n) [].
Proof.
  split; [|reflexivity]. intros f. cbn. split.
  - intros Hf. now apply not_elem_of_empty in Hf.
  - intros (r & Hr & _). now apply elem_of_nil in Hr.
Qed.

Lemma consolidated_step c seen r :
  consolidated c seen ->
  consolidated (on_final_response c r).1 (seen ++ [r]).
Proof.
  intros [Hforks Hbest]. split.
  - intros f. cbn. rewrite elem_of_union, elem_of_singleton, Hforks. split.
    + intros [->|(r' & Hr' & Hf)].
      * exists r. split; [apply elem_of_app; right; apply list_elem_of_singleton|];
          reflexivity.
      * exists r'. split; [apply elem_of_app; now left | exact Hf].
    + intros (r' & Hr' & Hf). apply elem_of_app in Hr' as [Hr'|Hr'].
      * right. now exists r'.
      * apply list_elem_of_singleton in Hr'. subst r'. now left.
  - cbn. unfold remember. destruct (best c) as [b|].
    + destruct Hbest as [(l1 & l2 & Hseen & Hfirst) Hmax].
      destruct (outranks (rsp_code r) (rsp_code b)) eqn:Hout.
      * apply outranks_spec in Hout. split.
        -- exists seen, []. split; [reflexivity|].
           intros r' Hr' Hcode. apply Hmax, outranks_false in Hr'.
           rewrite Hcode in Hr'. lia.
        -- intros r' Hr'. apply elem_of_app in Hr' as [Hr'|Hr'].
           ++ apply Hmax, outranks_false in Hr'. apply outranks_false. lia.
           ++ apply list_elem_of_singleton in Hr'. subst r'. apply outranks_irrefl.
      * split.
        -- exists l1, (l2 ++ [r]). split; [|exact Hfirst].
           rewrite Hseen, <- app_assoc. reflexivity.
        -- intros r' Hr'. apply elem_of_app in Hr' as [Hr'|Hr'].
           ++ now apply Hmax.
           ++ apply list_elem_of_singleton in Hr'. now subst r'.
    + subst seen. split.
      * exists [], []. split; [reflexivity|]. intros r' Hr'.
        now apply elem_of_nil in Hr'.
      * intros r' Hr'. apply list_elem_of_singleton in Hr'. subst r'.
        apply outranks_irrefl.
Qed.

Lemma all_final_spec c :
  all_final c = true <-> forall f, (f < forks_created c)%nat -> f ∈ forks_final c.
Proof.
  unfold all_final. rewrite forallb_forall. split.
  - intros H f Hf. specialize (H f). rewrite bool_decide_eq_true in H.
    apply H, in_seq. lia.
  - intros H f Hf. apply bool_decide_eq_true, H. apply in_seq in Hf. lia.
Qed.

Lemma on_final_response_created c r :
  forks_created (on_final_response c r).1 = forks_created c.
Proof. reflexivity. Qed.

(** An arrival forwards something only when every fork has by then
    reported, and what it forwards is the response remembered as best. *)
Lemma on_final_response_forward c r b :
  (on_final_response c r).2 = Some b ->
  all_final (on_final_response c r).1 = true
  /\ best (on_final_response c r).1 = Some b.
Proof.
  unfold on_final_response. cbn [fst snd]. intros Hfwd.
  match type of Hfwd with
  | context [all_final ?x] => destruct (all_final x) eqn:Hall
  end; [now split | discriminate].
Qed.

Lemma consolidate_run rs : forall c seen,
  consolidated c seen ->
  let r := consolidate c rs in
  consolidated r.1 (seen ++ rs)
  /\ forks_created r.1 = forks_created c
  /\ (forall b, b ∈ r.2 ->
        forall f, (f < forks_created c)%nat ->
                  exists x, x ∈ seen ++ rs /\ rsp_fork x = f)
  /\ (rs <> [] -> all_final r.1 = true -> last r.2 = best r.1).
Proof.
  induction rs as [|r rs IH]; intros c seen Hc; cbn zeta.
  - cbn [consolidate fst snd]. rewrite app_nil_r.
    split; [exact Hc|]. split; [reflexivity|]. split; [|congruence].
    intros b Hb. now apply elem_of_nil in Hb.
  - cbn [consolidate].
    pose proof (consolidated_step c seen r Hc) as Hstep.
    pose proof (on_final_response_forward c r) as Hfwd.
    pose proof (on_final_response_created c r) as Hcr.
    destruct (on_final_response c r) as [c' fwd] eqn:Hon. cbn [fst snd] in *.
    specialize (IH c' (seen ++ [r]) Hstep). cbn zeta in IH.
    destruct (consolidate c' rs) as [c'' fwds] eqn:Hrun. cbn [fst snd] in *.
    rewrite <- app_assoc in IH. cbn [app] in IH.
    destruct IH as (Hcons & Hcreated & Honly & Hlast).
    split; [exact Hcons|]. split; [congruence|]. split.
    + intros b Hb f Hf.
      assert (Hcase : fwd = Some b \/ b ∈ fwds).
      { destruct fwd as [b0|]; [|now right].
        apply elem_of_cons in Hb as [->|Hb]; [now left | now right]. }
      destruct Hcase as [Hnow|Hlater].
      * destruct (Hfwd b Hnow) as [Hall _].
        rewrite all_final_spec, Hcr in Hall.
        destruct Hstep as [Hforks _]. specialize (Hall f Hf).
        apply Hforks in Hall.
        destruct Hall as (x & Hx & Hxf). exists x. split; [|exact Hxf].
        apply elem_of_app in Hx as [Hx|Hx].
        -- apply elem_of_app. now left.
        -- apply list_elem_of_singleton in Hx. subst x.
           apply elem_of_app. right. apply elem_of_cons. now left.
      * apply (Honly b Hlater f). congruence.
    + intros _ Hall. destruct rs as [|r' rs'].
      * cbn [consolidate] in Hrun. injection Hrun as <- <-.
        unfold on_final_response in Hon. injection Hon as <- <-.
        cbn [best] in *. rewrite Hall.
        now destruct (remember (best c) r).
      * specialize (Hlast ltac:(discriminate) Hall).
        destruct fwd as [b0|]; [|exact Hlast].
        rewrite <- Hlast. destruct fwds as [|b1 fwds'].
        -- cbn in Hlast.
           assert (Hb : is_Some (best c'')).
           { destruct Hcons as [_ Hb]. destruct (best c''); [eauto|].
             now destruct seen. }
           rewrite <- Hlast in Hb. now destruct Hb.
        -- reflexivity.
Qed.

(** C7 -- consolidation of the final responses, not 2xx, that [forks]
    forks deliver in the order [rs] (the rule taken from the
    specification): the response remembered as best is one of the
    arrivals, no arrival outranks it under the ordering 6xx > 2xx > 3xx >
    4xx > 5xx with the lower code first within a class, and it is the
    first arrival with its code; a response is forwarded upstream only
    when every fork has reported a final response, and what is forwarded
    once all have reported is the best response. *)
Theorem best_response_forwarded_when_all_final (forks : nat) (rs : list response) :
  rs <> [] ->
  let c := (consolidate (context_new forks) rs).1 in
  let forwarded := (consolidate (context_new forks) rs).2 in
  (exists b l1 l2,
     best c = Some b
     /\ rs = l1 ++ b :: l2
     /\ (forall r, r ∈ l1 -> rsp_code r <> rsp_code b)
     /\ (forall r, r ∈ rs ->
           class_rank (rsp_code r) < class_rank (rsp_code b)
           \/ (class_rank (rsp_code r) = class_rank (rsp_code b)
               /\ rsp_code b <= rsp_code r)))
  /\ (forall b, b ∈ forwarded ->
        forall f, (f < forks)%nat -> exists r, r ∈ rs /\ rsp_fork r = f)
  /\ ((forall f, (f < forks)%nat -> exists r, r ∈ rs /\ rsp_fork r = f) ->
        last forwarded = best c).
Proof.
  intros Hne. cbn zeta.
  pose proof (consolidate_run rs (context_new forks) [] (consolidated_new forks))
    as (Hcons & Hcreated & Honly & Hlast).
  cbn [app] in *.
  destruct (consolidate (context_new forks) rs) as [c fwds]. cbn [fst snd] in *.
  destruct Hcons as [Hforks Hbest]. split; [|split].
  - destruct (best c) as [b|]; [|contradiction].
    destruct Hbest as [(l1 & l2 & Hrs & Hfirst) Hmax].
    exists b, l1, l2. split; [reflexivity|]. split; [exact Hrs|].
    split; [exact Hfirst|]. intros r Hr. now apply outranks_false, Hmax.
  - exact Honly.
  - intros Hall. apply (Hlast Hne). apply all_final_spec.
    intros f Hf. apply Hforks, Hall. cbn in Hcreated. lia.
Qed.

(** Two forks answering 486 and then 480: nothing is forwarded after the
    first answer; after the second the 480, the lower code of the class,
    is. *)
Lemma best_response_forwarded_when_all_final_witness :
  let c := (consolidate (context_new 2) Samples.finals_busy).1 in
  let forwarded := (consolidate (context_new 2) Samples.finals_busy).2 in
  (exists b l1 l2,
     best c = Some b
     /\ Samples.finals_busy = l1 ++ b :: l2
     /\ (forall r, r ∈ l1 -> rsp_code r <> rsp_code b)
     /\ (forall r, r ∈ Samples.finals_busy ->
           class_rank (rsp_code r) < class_rank (rsp_code b)
           \/ (class_rank (rsp_code r) = class_rank (rsp_code b)
               /\ rsp_code b <= rsp_code r)))
  /\ (forall b, b ∈ forwarded ->
        forall f, (f < 2)%nat -> exists r, r ∈ Samples.finals_busy /\ rsp_fork r = f)
  /\ ((forall f, (f < 2)%nat -> exists r, r ∈ Samples.finals_busy /\ rsp_fork r = f) ->
        last forwarded = best c).
Proof.
  apply (best_response_forwarded_when_all_final 2 Samples.finals_busy).
  discriminate.
Defined.

Example consolidate_busy :
  (consolidate (context_new 2) Samples.finals_busy).2
  = [ {| rsp_fork := 1; rsp_code := 480 |} ]
  /\ (consolidate (context_new 2) (take 1 Samples.finals_busy)).2 = [].
Proof. split; vm_compute; reflexivity. Qed.

(* ===================================================================== *)
(** * 12. The registration store: further properties of the code         *)
(* ===================================================================== *)

(** X1 -- [remove_binding] erases the entry of the identifier and nothing
    else; without such an entry the AoR is left as it is, and so it undoes
    the creation of a binding by [get_binding]; a [get_binding] after it
    starts from an empty binding again. *)
Theorem remove_binding_undoes_get_binding (a : AoR) (binding_id : string) :
  _bindings (remove_binding a binding_id) = delete binding_id (_bindings a)
  /\ _cas (remove_binding a binding_id) = _cas a
  /\ (_bindings a !! binding_id = None ->
        remove_binding a binding_id = a
        /\ remove_binding (get_binding a binding_id).2 binding_id = a)
  /\ (get_binding (remove_binding a binding_id) binding_id).1 = Binding_new.
Proof.
  unfold remove_binding at 1 2 3 5.
  destruct (_bindings a !! binding_id) as [b|] eqn:Hb; cbn [_bindings _cas].
  - split; [reflexivity|]. split; [reflexivity|]. split; [discriminate|].
    unfold get_binding. cbn [_bindings]. now rewrite lookup_delete_eq.
  - split; [now rewrite delete_id|]. split; [reflexivity|]. split.
    + intros _. split; [reflexivity|].
      unfold get_binding, remove_binding. rewrite Hb. cbn [snd _bindings _cas].
      rewrite lookup_insert_eq. apply AoR_eq; cbn [_bindings _cas]; [|reflexivity].
      rewrite delete_insert_eq. now apply delete_id.
    + unfold get_binding. now rewrite Hb.
Qed.

Lemma remove_binding_undoes_get_binding_witness :
  remove_binding Samples.aor_one "ua-9" = Samples.aor_one
  /\ remove_binding (get_binding Samples.aor_one "ua-9").2 "ua-9" = Samples.aor_one.
Proof.
  exact (proj1 (proj2 (proj2 (remove_binding_undoes_get_binding Samples.aor_one "ua-9")))
           eq_refl).
Defined.

Lemma max_expires_unique (now mx1 mx2 : Z) (post : gmap string Binding) :
  (now <= mx1 /\ (forall k b, post !! k = Some b -> _expires b <= mx1)
   /\ (mx1 = now \/ exists k b, post !! k = Some b /\ mx1 = _expires b)) ->
  (now <= mx2 /\ (forall k b, post !! k = Some b -> _expires b <= mx2)
   /\ (mx2 = now \/ exists k b, post !! k = Some b /\ mx2 = _expires b)) ->
  mx1 = mx2.
Proof.
  intros (Hlo1 & Hup1 & Hat1) (Hlo2 & Hup2 & Hat2).
  destruct Hat1 as [->|(k1 & b1 & Hb1 & ->)], Hat2 as [->|(k2 & b2 & Hb2 & ->)].
  - reflexivity.
  - specialize (Hup1 _ _ Hb2). lia.
  - specialize (Hup2 _ _ Hb1). lia.
  - specialize (Hup1 _ _ Hb2). specialize (Hup2 _ _ Hb1). lia.
Qed.

(** X2 -- expiring at [now1] and then at a later (or the same) time [now2]
    gives what expiring once at [now2] gives, the AoR and the value
    returned alike; in particular [expire_bindings] is idempotent. *)
Theorem expire_bindings_compose (a : AoR) (now1 now2 : Z) :
  now1 <= now2 ->
  expire_bindings (expire_bindings a now1).2 now2 = expire_bindings a now2.
Proof.
  intros Hle.
  assert (Hb : _bindings (expire_bindings (expire_bindings a now1).2 now2).2
               = _bindings (expire_bindings a now2).2).
  { apply map_eq. intros k. apply option_eq. intros b.
    rewrite !expire_bindings_lookup. intuition lia. }
  pose proof (expire_bindings_max (expire_bindings a now1).2 now2) as H1.
  pose proof (expire_bindings_max a now2) as H2.
  cbn zeta in H1, H2. rewrite Hb in H1.
  pose proof (max_expires_unique _ _ _ _ H1 H2) as Hmx.
  assert (Hc1 : _cas (expire_bindings (expire_bindings a now1).2 now2).2 = _cas a)
    by now rewrite !expire_bindings_cas.
  pose proof (expire_bindings_cas a now2) as Hc2.
  destruct (expire_bindings (expire_bindings a now1).2 now2) as [mx1 p1].
  destruct (expire_bindings a now2) as [mx2 p2]. cbn [fst snd] in *.
  f_equal; [exact Hmx|]. apply AoR_eq; congruence.
Qed.

Lemma expire_bindings_compose_witness :
  expire_bindings (expire_bindings Samples.aor_two 1000).2 1030
  = expire_bindings Samples.aor_two 1030.
Proof.
  apply (expire_bindings_compose Samples.aor_two 1000 1030). lia.
Defined.

Lemma read_uninit_int_short (s : string) :
  (String.length s < 4)%nat -> (read_uninit_int (iss_open s)).1 = None.
Proof.
  destruct s as [|c1 [|c2 [|c3 [|c4 s]]]]; cbn [String.length]; intros H;
    try reflexivity; lia.
Qed.

Lemma deserialize_aor_short (s : string) :
  (String.length s < 4)%nat -> deserialize_aor s = Indeterminate.
Proof.
  intros H. apply read_uninit_int_short in H.
  unfold deserialize_aor, deserialize_stream.
  destruct (read_uninit_int (iss_open s)) as [n iss]. cbn [fst] in H. now subst n.
Qed.

(** X3 -- when the store answers [OK] with a value of fewer than four
    bytes (an empty value, say), no check stands between the failed read
    of the binding count and its use: [get_aor_data] runs
    [deserialize_aor] into the loop test on [num_bindings], a variable no
    read has set.  The call evaluates an indeterminate value
    ([Indeterminate]); what it goes on to return is whatever that value
    makes of it (an AoR without bindings where it happens to be zero or
    negative), not something the stored value determines. *)
Theorem get_aor_data_short_value {St : Type} `{!Store St} (aor_id : string)
    (st st' : St) (data : string) (cas : Z) :
  get_data "reg" aor_id st = (OK, data, cas, st') ->
  (String.length data < 4)%nat ->
  deserialize_aor data = Indeterminate
  /\ get_aor_data aor_id st = (Indeterminate, st').
Proof.
  intros Hget Hlen. pose proof (deserialize_aor_short data Hlen) as Hd.
  split; [exact Hd|]. unfold get_aor_data. rewrite Hget. cbn [Status_eqb].
  now rewrite Hd.
Qed.

Lemma get_aor_data_short_value_witness :
  deserialize_aor "" = Indeterminate
  /\ get_aor_data "sip:gone@example.net" Samples.mem_blank
     = (Indeterminate, Samples.mem_blank).
Proof.
  apply (get_aor_data_short_value "sip:gone@example.net" Samples.mem_blank
           Samples.mem_blank "" 2).
  - reflexivity.
  - cbn. lia.
Defined.

Lemma deserialize_stream_serialized_app a junk :
  aor_ok a = true ->
  deserialize_stream (serialize_aor a +:+ junk)
  = Returned (store_all AoR_new (in_order (_bindings a)), iss_open junk).
Proof.
  intros Hok. apply aor_ok_in_order in Hok as [Hsize Hall].
  unfold deserialize_stream, serialize_aor. rewrite append_assoc.
  rewrite (read_uninit_int_write _ _ (size_ok_in_range _ Hsize)).
  cbn [use_int]. rewrite bind_Returned, (size_ok_wrap _ Hsize), Nat2Z.id.
  rewrite <- in_order_length.
  now apply deserialize_loop_serialized.
Qed.

(** X4 -- [deserialize_aor] stops after the last binding the count
    announces: whatever follows the record is ignored, and the AoR of the
    record is returned. *)
Theorem deserialize_ignores_trailing_bytes (a : AoR) (junk : string) :
  aor_ok a = true ->
  deserialize_aor (serialize_aor a +:+ junk) = deserialize_aor (serialize_aor a)
  /\ deserialize_aor (serialize_aor a +:+ junk) = Returned (set_cas a 0).
Proof.
  intros Hok. rewrite (deserialize_serialized _ Hok).
  assert (H : deserialize_aor (serialize_aor a +:+ junk) = Returned (set_cas a 0)).
  { unfold deserialize_aor. rewrite (deserialize_stream_serialized_app _ _ Hok).
    rewrite bind_Returned. f_equal. apply AoR_eq.
    - apply store_all_in_order.
    - now rewrite store_all_cas. }
  now split.
Qed.

Lemma deserialize_ignores_trailing_bytes_witness :
  deserialize_aor (serialize_aor Samples.aor_one +:+ "trailing bytes")
  = Returned (set_cas Samples.aor_one 0).
Proof.
  refine (proj2 (deserialize_ignores_trailing_bytes Samples.aor_one "trailing bytes" _)).
  vm_compute. reflexivity.
Defined.

(** X5 -- a record whose count is zero or negative yields an AoR without
    bindings, whatever follows the count: the loop over the bindings is
    not entered. *)
Theorem deserialize_nonpositive_count (n : Z) (rest : string) :
  Int.in_range n -> n <= 0 ->
  deserialize_aor (write_int n +:+ rest) = Returned AoR_new.
Proof.
  intros Hn Hle. unfold deserialize_aor, deserialize_stream.
  rewrite (read_uninit_int_write _ _ Hn). cbn [use_int]. rewrite bind_Returned.
  replace (Z.to_nat n) with 0%nat by lia. reflexivity.
Qed.

Lemma deserialize_nonpositive_count_witness :
  deserialize_aor (write_int (-3) +:+ serialize_bindings (in_order (_bindings Samples.aor_two)))
  = Returned AoR_new.
Proof.
  apply (deserialize_nonpositive_count (-3)).
  - unfold Int.in_range, Int.min_signed, Int.max_signed. lia.
  - lia.
Defined.

Lemma deserialize_binding_at_end (a : AoR) (iss : istringstream) :
  iss_rest iss = "" -> deserialize_binding a iss = Indeterminate.
Proof.
  destruct iss as [rest eof fail]. cbn [iss_rest]. intros ->.
  unfold deserialize_binding.
  destruct eof, fail; cbn [getline iss_good iss_eof iss_fail iss_rest negb andb
                             scan_delim iss_sentry_failed];
    destruct (get_binding a "") as [b a']; reflexivity.
Qed.

(** X6 -- a record that announces more bindings than it holds (one cut
    between two bindings, for instance) is not detected: after the
    bindings present, [deserialize_aor] enters the turn of the loop for
    the first missing binding, and there, with every read failing on the
    exhausted stream, hands [resize] a parameter count that no read has
    set.  The call evaluates an indeterminate value ([Indeterminate]);
    what it goes on to return is whatever that value makes of it, not
    something the record determines. *)
Theorem deserialize_overstated_count (n : Z) (l : list (string * Binding)) :
  forallb binding_ok l = true ->
  Z.of_nat (length l) < n <= Int.max_signed ->
  deserialize_aor (write_int n +:+ serialize_bindings l) = Indeterminate.
Proof.
  intros Hl Hn. unfold deserialize_aor, deserialize_stream.
  rewrite read_uninit_int_write
    by (unfold Int.in_range, Int.min_signed, Int.max_signed in *; lia).
  cbn [use_int]. rewrite bind_Returned.
  replace (Z.to_nat n) with (length l + S (Z.to_nat n - S (length l)))%nat by lia.
  rewrite deserialize_loop_add.
  rewrite <- (append_nil_r (serialize_bindings l)).
  rewrite (deserialize_loop_serialized _ _ _ Hl), bind_Returned.
  cbn [fst snd deserialize_loop].
  now rewrite deserialize_binding_at_end.
Qed.

Lemma deserialize_overstated_count_witness :
  deserialize_aor (write_int 3 +:+ serialize_bindings (in_order (_bindings Samples.aor_two)))
  = Indeterminate.
Proof.
  apply (deserialize_overstated_count 3).
  - vm_compute. reflexivity.
  - vm_compute. split; [reflexivity | discriminate].
Defined.

Lemma aor_ok_lookup (a : AoR) :
  aor_ok a = true
  <-> size_ok (size (_bindings a)) = true
      /\ forall k b, _bindings a !! k = Some b -> binding_ok (k, b) = true.
Proof.
  unfold aor_ok. rewrite andb_true_iff, forallb_forall. split.
  - intros [Hs Hall]. split; [exact Hs|]. intros k b Hb. apply Hall.
    now apply list_elem_of_In, elem_of_map_to_list.
  - intros [Hs Hall]. split; [exact Hs|]. intros [k b] Hin. apply Hall.
    now apply elem_of_map_to_list, list_elem_of_In.
Qed.

Lemma aor_ok_expire (a : AoR) (now : Z) :
  aor_ok a = true -> aor_ok (expire_bindings a now).2 = true.
Proof.
  rewrite !aor_ok_lookup. intros [Hs Hall]. split.
  - rewrite expire_bindings_filter.
    pose proof (map_subseteq_size
                  (filter (fun kb : string * Binding => now < _expires kb.2) (_bindings a))
                  (_bindings a) (map_filter_subseteq _ _)) as Hle.
    unfold size_ok in *. apply Z.leb_le in Hs. apply Z.leb_le. lia.
  - intros k b Hb. apply expire_bindings_lookup in Hb as [Hb _]. now apply Hall.
Qed.

Lemma MemStore_reads_own_write (table key data : string) (cas expiry : Z)
    (s s' : MemStore) :
  set_data table key data cas expiry s = (OK, s') ->
  exists cas', get_data table key s' = (OK, data, cas', s').
Proof.
  cbn [set_data get_data MemStore_Store]. unfold MemStore_set, MemStore_get.
  destruct ((cas =? 0) || (cas =? _)); [|discriminate].
  intros [= <-]. cbn [mem_entries]. rewrite lookup_insert_eq.
  eexists. reflexivity.
Qed.

(** X7 -- what [set_aor_data] writes, [get_aor_data] reads back.  Over a
    store where a [get_data] that follows a [set_data] answering [OK]
    gives the value that [set_data] was handed (with some CAS): when
    [set_aor_data] returns true, a [get_aor_data] on the store it leaves
    returns the AoR that [set_aor_data] left to its caller, namely the
    bindings that had not expired, with the CAS of the store. *)
Theorem set_then_get_aor_data {St : Type} `{!Store St} (aor_id : string)
    (a post : AoR) (now : Z) (st st' : St) :
  aor_ok a = true ->
  (forall data cas expiry s s',
     set_data "reg" aor_id data cas expiry s = (OK, s') ->
     exists cas' s'', get_data "reg" aor_id s' = (OK, data, cas', s'')) ->
  set_aor_data aor_id a now st = (true, post, st') ->
  (exists cas' st'',
     get_data "reg" aor_id st' = (OK, serialize_aor post, cas', st'')
     /\ get_aor_data aor_id st' = (Returned (Some (set_cas post cas')), st''))
  /\ (forall k b, _bindings post !! k = Some b
                  <-> _bindings a !! k = Some b /\ now < _expires b).
Proof.
  intros Hok Hlaw. unfold set_aor_data.
  pose proof (aor_ok_expire a now Hok) as Hokp.
  pose proof (expire_bindings_lookup a now) as Hlk.
  destruct (expire_bindings a now) as [mx p]. cbn [snd] in Hokp, Hlk.
  destruct (set_data "reg" aor_id (serialize_aor p) (_cas p) (Int.sub mx now) st)
    as [status s1] eqn:Hset.
  intros [= Hst <- <-]. destruct status; try discriminate Hst.
  split; [|exact Hlk].
  destruct (Hlaw _ _ _ _ _ Hset) as (cas' & s'' & Hget).
  exists cas', s''. split; [exact Hget|].
  unfold get_aor_data. rewrite Hget. cbn [Status_eqb].
  now rewrite (deserialize_serialized _ Hokp), bind_Returned.
Qed.

Lemma set_then_get_aor_data_witness :
  let '(ok, post, st') :=
    set_aor_data "sip:alice@example.net" Samples.aor_two 1000 Samples.mem_two in
  ok = true
  /\ exists cas' st'',
       get_data "reg" "sip:alice@example.net" st' = (OK, serialize_aor post, cas', st'')
       /\ get_aor_data "sip:alice@example.net" st'
          = (Returned (Some (set_cas post cas')), st'').
Proof.
  destruct (set_aor_data "sip:alice@example.net" Samples.aor_two 1000 Samples.mem_two)
    as [[ok post] st'] eqn:Hset.
  assert (Hok : ok = true) by (vm_compute in Hset; now injection Hset as <- _ _).
  split; [exact Hok|]. subst ok.
  refine (proj1 (set_then_get_aor_data "sip:alice@example.net" Samples.aor_two post
                   1000 Samples.mem_two st' _ _ Hset)).
  - vm_compute. reflexivity.
  - intros data cas expiry s s' Hs.
    destruct (MemStore_reads_own_write _ _ _ _ _ _ _ Hs) as [cas' Hg].
    now exists cas', s'.
Defined.

(** X8 -- two AoRs the record format can carry have the same record only
    if they have the same bindings. *)
Theorem serialize_aor_injective (a b : AoR) :
  aor_ok a = true -> aor_ok b = true ->
  serialize_aor a = serialize_aor b -> _bindings a = _bindings b.
Proof.
  intros Ha Hb Heq.
  pose proof (deserialize_serialized _ Ha) as Hda.
  rewrite Heq, (deserialize_serialized _ Hb) in Hda.
  injection Hda as Hab. now symmetry.
Qed.

Lemma serialize_aor_injective_witness :
  serialize_aor Samples.aor_one = serialize_aor (set_cas Samples.aor_one 9)
  /\ _bindings Samples.aor_one = _bindings (set_cas Samples.aor_one 9).
Proof.
  split; [reflexivity|].
  apply (serialize_aor_injective Samples.aor_one (set_cas Samples.aor_one 9));
    vm_compute; reflexivity.
Defined.

(* ===================================================================== *)
(** * 13. AoR objects: copying, assigning and clearing                   *)
(* ===================================================================== *)

Import AoRObjects.

Lemma ptrs_in_order_perm (m : gmap string nat) : ptrs_in_order m ≡ₚ map_to_list m.
Proof. apply merge_sort_Permutation. Qed.

Lemma ptrs_in_order_lookup (m : gmap string nat) k p :
  (k, p) ∈ ptrs_in_order m <-> m !! k = Some p.
Proof. rewrite ptrs_in_order_perm. apply elem_of_map_to_list. Qed.

Lemma ptrs_in_order_NoDup (m : gmap string nat) : NoDup (ptrs_in_order m).*1.
Proof. rewrite ptrs_in_order_perm. apply NoDup_fst_map_to_list. Qed.

Lemma ptrs_in_order_keys (m : gmap string nat) k :
  k ∈ (ptrs_in_order m).*1 <-> is_Some (m !! k).
Proof.
  rewrite list_elem_of_fmap. split.
  - intros ([k' p] & -> & Hin). apply ptrs_in_order_lookup in Hin. eauto.
  - intros [p Hp]. exists (k, p). split; [reflexivity|].
    now apply ptrs_in_order_lookup.
Qed.

Lemma ptrs_in_order_NoDup_ptrs (m : gmap string nat) :
  (forall k1 k2 p, m !! k1 = Some p -> m !! k2 = Some p -> k1 = k2) ->
  NoDup (ptrs_in_order m).*2.
Proof.
  intros Hinj. apply NoDup_fmap_2_strong.
  - intros [k1 p1] [k2 p2] H1 H2. cbn. intros ->.
    apply ptrs_in_order_lookup in H1, H2. f_equal. eauto.
  - eapply NoDup_fmap_1, ptrs_in_order_NoDup.
Qed.

(** The loop of [clear]: with distinct live pointers every delete is
    defined, and exactly the cells of the list are gone. *)
Lemma delete_all_spec l : forall (c : gmap nat Binding),
  NoDup l.*2 ->
  (forall k p, (k, p) ∈ l -> is_Some (c !! p)) ->
  exists c', delete_all l c = Some c'
    /\ forall q, c' !! q = if decide (q ∈ l.*2) then None else c !! q.
Proof.
  induction l as [|[k p] l IH]; intros c Hnd Hlive.
  - exists c. split; [reflexivity|]. intros q.
    destruct (decide (q ∈ ([] : list (string * nat)).*2)) as [Hin|]; [|reflexivity].
    now apply elem_of_nil in Hin.
  - cbn [fmap list_fmap snd] in Hnd. apply NoDup_cons in Hnd as [Hp Hnd].
    destruct (Hlive k p) as [b Hb]; [apply elem_of_cons; now left|].
    cbn [delete_all snd]. rewrite Hb.
    destruct (IH (delete p c) Hnd) as (c' & Hdel & Hc').
    { intros k' p' Hin. rewrite lookup_delete_ne.
      - apply (Hlive k'). apply elem_of_cons. now right.
      - intros ->. apply Hp. apply list_elem_of_fmap. now exists (k', p'). }
    exists c'. split; [exact Hdel|]. intros q. rewrite Hc'.
    cbn [fmap list_fmap snd].
    destruct (decide (q ∈ l.*2)) as [Hin|Hnin].
    + rewrite decide_True; [reflexivity|]. apply elem_of_cons. now right.
    + destruct (decide (q = p)) as [->|Hne].
      * rewrite lookup_delete_eq. rewrite decide_True; [reflexivity|].
        apply elem_of_cons. now left.
      * rewrite lookup_delete_ne by congruence.
        rewrite decide_False; [reflexivity|].
        intros [->|Hin]%elem_of_cons; contradiction.
Qed.

(** The copying loop: it is defined when every pointer of the list is
    live; the cells that were live keep their content, every identifier of
    the list gets a pointer to a new cell with the content of the cell it
    had, and no two identifiers get the same pointer. *)
Lemma copy_loop_spec l : forall (c : gmap nat Binding) (dst : gmap string nat),
  NoDup l.*1 ->
  (forall k p, (k, p) ∈ l -> is_Some (c !! p)) ->
  (forall k, k ∈ l.*1 -> dst !! k = None) ->
  exists c' dst', copy_loop l c dst = Some (c', dst')
    /\ (forall p, p ∈ dom c -> c' !! p = c !! p)
    /\ (forall k, k ∉ l.*1 -> dst' !! k = dst !! k)
    /\ (forall k p, (k, p) ∈ l ->
          exists q, dst' !! k = Some q /\ (q ∉ dom c) /\ c' !! q = c !! p)
    /\ (forall q, q ∈ dom c' ->
          q ∈ dom c \/ exists k, k ∈ l.*1 /\ dst' !! k = Some q)
    /\ (forall k1 k2 q, k1 ∈ l.*1 -> k2 ∈ l.*1 ->
          dst' !! k1 = Some q -> dst' !! k2 = Some q -> k1 = k2).
Proof.
  induction l as [|[k p] l IH]; intros c dst Hnd Hlive Hfree.
  - exists c, dst. split; [reflexivity|]. split; [reflexivity|].
    split; [reflexivity|]. split.
    { intros k p Hin. now apply elem_of_nil in Hin. }
    split; [now left|]. intros k1 k2 q Hin. now apply elem_of_nil in Hin.
  - cbn [fmap list_fmap fst] in Hnd, Hfree. apply NoDup_cons in Hnd as [Hk Hnd].
    destruct (Hlive k p) as [b Hb]; [apply elem_of_cons; now left|].
    cbn [copy_loop fst snd]. rewrite Hb.
    pose proof (is_fresh (dom c)) as Hfresh.
    set (bb := fresh (dom c)) in *.
    assert (Hdstk : map_insert_absent k bb dst = <[k := bb]> dst).
    { unfold map_insert_absent.
      rewrite (Hfree k); [reflexivity | apply elem_of_cons; now left]. }
    rewrite Hdstk.
    destruct (IH (<[bb := b]> c) (<[k := bb]> dst) Hnd)
      as (c' & dst' & Hloop & Hold & Hother & Hnew & Hdom & Hinj).
    { intros k' p' Hin. destruct (decide (bb = p')) as [->|Hne].
      - rewrite lookup_insert_eq. eauto.
      - rewrite lookup_insert_ne by exact Hne.
        apply (Hlive k'). apply elem_of_cons. now right. }
    { intros k' Hin. rewrite lookup_insert_ne.
      - apply Hfree. apply elem_of_cons. now right.
      - intros ->. contradiction. }
    assert (Hkbb : dst' !! k = Some bb).
    { rewrite (Hother k Hk). apply lookup_insert_eq. }
    assert (Hcbb : c' !! bb = Some b).
    { rewrite Hold; [apply lookup_insert_eq|]. rewrite dom_insert_L. set_solver. }
    exists c', dst'. split; [exact Hloop|]. split.
    { intros q Hq. rewrite Hold by (rewrite dom_insert_L; set_solver).
      apply lookup_insert_ne. intros ->. contradiction. }
    split.
    { intros k' Hk'. cbn [fmap list_fmap fst] in Hk'.
      rewrite Hother by (intros Hin; apply Hk'; apply elem_of_cons; now right).
      apply lookup_insert_ne. intros ->. apply Hk', elem_of_cons. now left. }
    split.
    { intros k' p' [Heq|Hin]%elem_of_cons.
      - injection Heq as -> ->. exists bb. now rewrite Hb.
      - destruct (Hnew k' p' Hin) as (q & Hq & Hqdom & Hcq).
        exists q. split; [exact Hq|]. rewrite dom_insert_L in Hqdom.
        split; [set_solver|]. rewrite Hcq. apply lookup_insert_ne.
        intros ->. destruct (Hlive k' p') as [? Hl]; [apply elem_of_cons; now right|].
        apply Hfresh. apply elem_of_dom. eauto. }
    split.
    { intros q Hq. destruct (Hdom q Hq) as [Hin|(k' & Hk' & Hq')].
      - rewrite dom_insert_L in Hin. apply elem_of_union in Hin as [Hin|Hin].
        + apply elem_of_singleton in Hin. subst q. right. exists k.
          split; [apply elem_of_cons; now left | exact Hkbb].
        + now left.
      - right. exists k'. split; [apply elem_of_cons; now right | exact Hq']. }
    intros k1 k2 q H1 H2 Hq1 Hq2. cbn [fmap list_fmap fst] in H1, H2.
    assert (Hlater : forall k', k' ∈ l.*1 -> dst' !! k' <> Some bb).
    { intros k' Hk' Heq. apply list_elem_of_fmap in Hk' as ([k'' p'] & -> & Hin).
      destruct (Hnew k'' p' Hin) as (q' & Hq' & Hqdom & _). cbn in Heq.
      rewrite Heq in Hq'. injection Hq' as <-.
      apply Hqdom. rewrite dom_insert_L. apply elem_of_union. left.
      now apply elem_of_singleton. }
    apply elem_of_cons in H1 as [Hk1|Hk1], H2 as [Hk2|Hk2]; subst.
    + reflexivity.
    + rewrite Hkbb in Hq1. injection Hq1 as <-. now destruct (Hlater k2 Hk2).
    + rewrite Hkbb in Hq2. injection Hq2 as <-. now destruct (Hlater k1 Hk1).
    + now apply (Hinj k1 k2 q).
Qed.

Lemma owns_unfold (m : memory) (this : nat) (o : AoRobj) :
  owns m this -> objs m !! this = Some o ->
  NoDup (ptrs_in_order (obj_bindings o)).*2
  /\ (forall k p, (k, p) ∈ ptrs_in_order (obj_bindings o) -> is_Some (cells m !! p)).
Proof.
  intros (o' & Ho' & Hlive & Hinj) Ho. rewrite Ho in Ho'. injection Ho' as <-.
  split; [now apply ptrs_in_order_NoDup_ptrs|].
  intros k p Hin. apply ptrs_in_order_lookup in Hin. eauto.
Qed.

Lemma elem_of_pointers_of (m : memory) (this : nat) (o : AoRobj) (p : nat) :
  objs m !! this = Some o ->
  p ∈ pointers_of m this <-> exists k, obj_bindings o !! k = Some p.
Proof.
  intros Ho. unfold pointers_of. rewrite Ho. apply elem_of_map_img.
Qed.

Lemma snd_ptrs_in_order (o : AoRobj) (q : nat) :
  q ∈ (ptrs_in_order (obj_bindings o)).*2 <-> exists k, obj_bindings o !! k = Some q.
Proof.
  rewrite list_elem_of_fmap. split.
  - intros ([k p] & -> & Hin). exists k. now apply ptrs_in_order_lookup.
  - intros [k Hk]. exists (k, q). split; [reflexivity|].
    now apply ptrs_in_order_lookup.
Qed.

(** X9 -- the copy constructor makes a deep copy: for an AoR that owns its
    bindings it is defined, the new object stands for the same AoR value
    (bindings and CAS), the object copied is as before, and every pointer
    of the copy is a new cell, so that a write through a pointer of the
    copy leaves the original alone and a write through a pointer of the
    original leaves the copy alone. *)
Theorem AoR_copy_is_deep (m : memory) (this other : nat) :
  objs m !! this = None ->
  owns m other ->
  exists m', AoR_copy m this other = Some m'
    /\ value_of m' this = value_of m other
    /\ value_of m' other = value_of m other
    /\ owns m' this
    /\ (forall q, q ∈ pointers_of m' this -> q ∉ dom (cells m))
    /\ (forall q b, q ∈ pointers_of m' this ->
          value_of (write_cell m' q b) other = value_of m other)
    /\ (forall p b, p ∈ pointers_of m other ->
          value_of (write_cell m' p b) this = value_of m' this).
Proof.
  intros Hthis Howns. pose proof Howns as (o & Ho & Hlive & Hinj).
  assert (Hne : this <> other) by congruence.
  unfold AoR_copy. rewrite Hthis, Ho.
  destruct (copy_loop_spec (ptrs_in_order (obj_bindings o)) (cells m) ∅)
    as (c' & dst' & -> & Hold & Hother & Hnew & Hdom & Hinj').
  { apply ptrs_in_order_NoDup. }
  { intros k p Hin. apply ptrs_in_order_lookup in Hin. eauto. }
  { intros k _. apply lookup_empty. }
  eexists. split; [reflexivity|].
  assert (Hdst : forall k q, dst' !! k = Some q ->
            exists p, obj_bindings o !! k = Some p
                      /\ (q ∉ dom (cells m)) /\ c' !! q = cells m !! p).
  { intros k q Hq. destruct (obj_bindings o !! k) as [p|] eqn:Hk.
    - destruct (Hnew k p) as (q' & Hq' & Hfresh & Hc);
        [now apply ptrs_in_order_lookup|].
      rewrite Hq in Hq'. injection Hq' as <-. eauto.
    - rewrite Hother, lookup_empty in Hq; [discriminate|].
      rewrite ptrs_in_order_keys, Hk. now intros [? ?]. }
  assert (Hkeep : forall k p, obj_bindings o !! k = Some p -> c' !! p = cells m !! p).
  { intros k p Hk. apply Hold. apply elem_of_dom. eauto. }
  split; [|split; [|split; [|split; [|split]]]].
  - unfold value_of. cbn [objs cells]. rewrite lookup_insert_eq, Ho.
    f_equal. apply AoR_eq; cbn [_bindings _cas obj_bindings obj_cas]; [|reflexivity].
    apply map_eq. intros k. rewrite !lookup_omap.
    destruct (obj_bindings o !! k) as [p|] eqn:Hk.
    + destruct (Hnew k p) as (q & -> & _ & Hc); [now apply ptrs_in_order_lookup|].
      exact Hc.
    + rewrite Hother, lookup_empty; [reflexivity|].
      rewrite ptrs_in_order_keys, Hk. now intros [? ?].
  - unfold value_of. cbn [objs cells]. rewrite lookup_insert_ne, Ho by exact Hne.
    f_equal. apply AoR_eq; cbn [_bindings _cas obj_bindings obj_cas]; [|reflexivity].
    apply map_eq. intros k. rewrite !lookup_omap.
    destruct (obj_bindings o !! k) as [p|] eqn:Hk; [|reflexivity].
    cbn. now apply (Hkeep k).
  - eexists. cbn [objs cells]. split; [apply lookup_insert_eq|].
    cbn [obj_bindings]. split.
    + intros k q Hq. destruct (Hdst k q Hq) as (p & Hp & _ & ->). eauto.
    + intros k1 k2 q H1 H2. apply (Hinj' k1 k2 q); try assumption.
      * destruct (Hdst _ _ H1) as (p & Hp & _).
        apply ptrs_in_order_keys. eauto.
      * destruct (Hdst _ _ H2) as (p & Hp & _).
        apply ptrs_in_order_keys. eauto.
  - intros q Hq. unfold pointers_of in Hq. cbn [objs] in Hq.
    rewrite lookup_insert_eq in Hq. cbn [obj_bindings] in Hq.
    apply elem_of_map_img in Hq as [k Hk].
    now destruct (Hdst k q Hk) as (_ & _ & Hfresh & _).
  - intros q b Hq. unfold pointers_of in Hq. cbn [objs] in Hq.
    rewrite lookup_insert_eq in Hq. cbn [obj_bindings] in Hq.
    apply elem_of_map_img in Hq as [k0 Hk0].
    destruct (Hdst k0 q Hk0) as (_ & _ & Hfresh & _).
    unfold value_of, write_cell. cbn [objs cells].
    rewrite lookup_insert_ne, Ho by exact Hne.
    f_equal. apply AoR_eq; cbn [_bindings _cas obj_bindings obj_cas]; [|reflexivity].
    apply map_eq. intros k. rewrite !lookup_omap.
    destruct (obj_bindings o !! k) as [p|] eqn:Hk; [|reflexivity].
    cbn. rewrite lookup_insert_ne; [now apply (Hkeep k)|].
    intros ->. apply Hfresh. apply elem_of_dom. eauto.
  - intros p b Hp. apply (elem_of_pointers_of _ _ _ _ Ho) in Hp as [k0 Hk0].
    unfold value_of, write_cell. cbn [objs cells]. rewrite lookup_insert_eq.
    f_equal. apply AoR_eq; cbn [_bindings _cas obj_bindings obj_cas]; [|reflexivity].
    apply map_eq. intros k. rewrite !lookup_omap.
    destruct (dst' !! k) as [q|] eqn:Hq; [|reflexivity].
    cbn. apply lookup_insert_ne. intros ->.
    destruct (Hdst k q Hq) as (_ & _ & Hfresh & _).
    apply Hfresh. apply elem_of_dom. eauto.
Qed.

Lemma owns_memory_two_1 : owns Samples.memory_two 1.
Proof.
  eexists. split; [reflexivity|]. cbn [obj_bindings]. split.
  - intros k p Hk.
    apply lookup_insert_Some in Hk as [[_ <-]|[_ Hk]]; [vm_compute; eauto|].
    apply lookup_singleton_Some in Hk as [_ <-]. vm_compute. eauto.
  - intros k1 k2 p H1 H2.
    apply lookup_insert_Some in H1 as [[<- <-]|[_ H1]];
      apply lookup_insert_Some in H2 as [[<- E]|[_ H2]]; try reflexivity;
      try (apply lookup_singleton_Some in H1 as [<- <-]);
      try (apply lookup_singleton_Some in H2 as [<- E]);
      try reflexivity; discriminate.
Qed.

Lemma owns_memory_two_2 : owns Samples.memory_two 2.
Proof.
  eexists. split; [reflexivity|]. cbn [obj_bindings]. split.
  - intros k p Hk. apply lookup_singleton_Some in Hk as [_ <-]. vm_compute. eauto.
  - intros k1 k2 p H1 H2.
    apply lookup_singleton_Some in H1 as [<- _].
    now apply lookup_singleton_Some in H2 as [<- _].
Qed.

Lemma AoR_copy_is_deep_witness :
  exists m', AoR_copy Samples.memory_two 3 1 = Some m'
    /\ value_of m' 3 = value_of Samples.memory_two 1
    /\ value_of m' 1 = value_of Samples.memory_two 1
    /\ owns m' 3
    /\ (forall q, q ∈ pointers_of m' 3 -> q ∉ dom (cells Samples.memory_two))
    /\ (forall q b, q ∈ pointers_of m' 3 ->
          value_of (write_cell m' q b) 1 = value_of Samples.memory_two 1)
    /\ (forall p b, p ∈ pointers_of Samples.memory_two 1 ->
          value_of (write_cell m' p b) 3 = value_of m' 3).
Proof.
  apply (AoR_copy_is_deep Samples.memory_two 3 1).
  - reflexivity.
  - exact owns_memory_two_1.
Defined.

Example AoR_copy_value :
  value_of Samples.memory_two 1 = Some Samples.aor_two
  /\ (m' ← AoR_copy Samples.memory_two 3 1; value_of m' 3) = Some Samples.aor_two
  /\ (m' ← AoR_copy Samples.memory_two 3 1; Some (pointers_of m' 3 ∩ pointers_of m' 1))
     = Some ∅.
Proof. vm_compute. repeat split. Qed.

Lemma clear_spec (m : memory) (this : nat) (o : AoRobj) :
  owns m this -> objs m !! this = Some o ->
  exists c, clear m this
            = Some {| cells := c;
                      objs := <[this := {| obj_bindings := ∅; obj_cas := obj_cas o |}]>
                                (objs m) |}
    /\ forall q, c !! q = if decide (q ∈ pointers_of m this) then None
                          else cells m !! q.
Proof.
  intros Howns Ho. destruct (owns_unfold _ _ _ Howns Ho) as [Hnd Hlive].
  destruct (delete_all_spec _ (cells m) Hnd Hlive) as (c & Hdel & Hc).
  exists c. unfold clear. rewrite Ho, Hdel. split; [reflexivity|].
  intros q. rewrite Hc.
  destruct (decide (q ∈ (ptrs_in_order (obj_bindings o)).*2)) as [Hin|Hnin];
    destruct (decide (q ∈ pointers_of m this)) as [Hin'|Hnin']; try reflexivity.
  - exfalso. apply Hnin'. apply (elem_of_pointers_of _ _ _ _ Ho).
    now apply snd_ptrs_in_order.
  - exfalso. apply Hnin. apply snd_ptrs_in_order.
    now apply (elem_of_pointers_of _ _ _ _ Ho).
Qed.

(** X10 -- [clear] (and with it the destructor) of an AoR that owns its
    bindings deletes exactly the [Binding] objects of its map: these cells
    are gone, every other cell and every other AoR object is untouched,
    the map is left empty and the CAS as it was; after the destructor the
    object is gone too. *)
Theorem clear_frees_own_bindings (m : memory) (this : nat) :
  owns m this ->
  exists m' o,
    objs m !! this = Some o
    /\ clear m this = Some m'
    /\ value_of m' this = Some {| _bindings := ∅; _cas := obj_cas o |}
    /\ dom (cells m') = dom (cells m) ∖ pointers_of m this
    /\ (forall p, p ∉ pointers_of m this -> cells m' !! p = cells m !! p)
    /\ (forall x, x <> this -> objs m' !! x = objs m !! x)
    /\ AoR_destroy m this
       = Some {| cells := cells m'; objs := delete this (objs m) |}.
Proof.
  intros Howns. pose proof Howns as (o & Ho & Hlive & Hinj).
  destruct (clear_spec m this o Howns Ho) as (c & Hclear & Hc).
  eexists _, o. split; [exact Ho|]. split; [exact Hclear|].
  cbn [cells objs]. split; [|split; [|split; [|split]]].
  - unfold value_of. cbn [objs cells]. rewrite lookup_insert_eq.
    cbn [obj_bindings obj_cas]. now rewrite omap_empty.
  - apply set_eq. intros q. rewrite elem_of_difference, !elem_of_dom, Hc.
    destruct (decide (q ∈ pointers_of m this)).
    + split; [now intros [? ?] | now intros [_ ?]].
    + split; [now intros ? | now intros [? _]].
  - intros p Hp. rewrite Hc. now rewrite decide_False.
  - intros x Hx. now apply lookup_insert_ne.
  - unfold AoR_destroy. rewrite Hclear. cbn [cells objs].
    now rewrite delete_insert_eq.
Qed.

Lemma clear_frees_own_bindings_witness :
  exists m' o,
    objs Samples.memory_two !! 1%nat = Some o
    /\ clear Samples.memory_two 1 = Some m'
    /\ value_of m' 1 = Some {| _bindings := ∅; _cas := obj_cas o |}
    /\ dom (cells m') = dom (cells Samples.memory_two) ∖ pointers_of Samples.memory_two 1
    /\ (forall p, p ∉ pointers_of Samples.memory_two 1 ->
          cells m' !! p = cells Samples.memory_two !! p)
    /\ (forall x, x <> 1%nat -> objs m' !! x = objs Samples.memory_two !! x)
    /\ AoR_destroy Samples.memory_two 1
       = Some {| cells := cells m'; objs := delete 1%nat (objs Samples.memory_two) |}.
Proof.
  apply (clear_frees_own_bindings Samples.memory_two 1). exact owns_memory_two_1.
Defined.

(** X11 -- the assignment operator makes a deep copy and leaks nothing.
    A self-assignment changes nothing.  Otherwise, for two AoRs that own
    their bindings and share none, the target afterwards stands for the
    value of the source, the source is as before, the two share no
    pointer, and the live [Binding] objects are those that were live and
    did not belong to the target, together with the new ones of the
    target. *)
Theorem AoR_assign_is_deep (m : memory) (this other : nat) :
  owns m this -> owns m other ->
  AoR_assign m this this = Some m
  /\ (this <> other ->
      pointers_of m this ## pointers_of m other ->
      exists m', AoR_assign m this other = Some m'
        /\ value_of m' this = value_of m other
        /\ value_of m' other = value_of m other
        /\ owns m' this
        /\ pointers_of m' this ## pointers_of m' other
        /\ dom (cells m')
           = (dom (cells m) ∖ pointers_of m this) ∪ pointers_of m' this).
Proof.
  intros Hthis Hother.
  pose proof Hthis as (t & Ht & Htlive & Htinj).
  pose proof Hother as (o & Ho & Holive & Hoinj).
  split.
  { unfold AoR_assign. rewrite decide_True by reflexivity. now rewrite Ht. }
  intros Hne Hdisj.
  destruct (clear_spec m this t Hthis Ht) as (c1 & Hclear & Hc1).
  unfold AoR_assign. rewrite decide_False by exact Hne. rewrite Hclear.
  cbn [objs cells]. rewrite lookup_insert_eq, lookup_insert_ne, Ho by exact Hne.
  cbn [obj_bindings].
  assert (Hkeep1 : forall k p, obj_bindings o !! k = Some p -> c1 !! p = cells m !! p).
  { intros k p Hk. rewrite Hc1. rewrite decide_False; [reflexivity|].
    intros Hin. apply (Hdisj p Hin). apply (elem_of_pointers_of _ _ _ _ Ho). eauto. }
  destruct (copy_loop_spec (ptrs_in_order (obj_bindings o)) c1 ∅)
    as (c' & dst' & -> & Hold & Hoth & Hnew & Hdom & Hinj').
  { apply ptrs_in_order_NoDup. }
  { intros k p Hin. apply ptrs_in_order_lookup in Hin.
    rewrite (Hkeep1 k p Hin). eauto. }
  { intros k _. apply lookup_empty. }
  eexists. split; [reflexivity|].
  assert (Hdst : forall k q, dst' !! k = Some q ->
            exists p, obj_bindings o !! k = Some p
                      /\ (q ∉ dom c1) /\ c' !! q = cells m !! p).
  { intros k q Hq. destruct (obj_bindings o !! k) as [p|] eqn:Hk.
    - destruct (Hnew k p) as (q' & Hq' & Hfresh & Hc);
        [now apply ptrs_in_order_lookup|].
      rewrite Hq in Hq'. injection Hq' as <-.
      exists p. rewrite Hc, (Hkeep1 k p Hk). eauto.
    - rewrite Hoth, lookup_empty in Hq; [discriminate|].
      rewrite ptrs_in_order_keys, Hk. now intros [? ?]. }
  assert (Hkeep : forall k p, obj_bindings o !! k = Some p -> c' !! p = cells m !! p).
  { intros k p Hk. rewrite Hold, (Hkeep1 k p Hk); [reflexivity|].
    apply elem_of_dom. rewrite (Hkeep1 k p Hk). eauto. }
  assert (Hptr' : forall q, q ∈ pointers_of
            {| cells := c';
               objs := <[this := {| obj_bindings := dst'; obj_cas := obj_cas o |}]>
                         (<[this := {| obj_bindings := ∅; obj_cas := obj_cas t |}]>
                            (objs m)) |} this
            <-> exists k, dst' !! k = Some q).
  { intros q. unfold pointers_of. cbn [objs]. rewrite lookup_insert_eq.
    cbn [obj_bindings]. apply elem_of_map_img. }
  split; [|split; [|split; [|split]]].
  - unfold value_of. cbn [objs cells]. rewrite lookup_insert_eq, Ho.
    f_equal. apply AoR_eq; cbn [_bindings _cas obj_bindings obj_cas]; [|reflexivity].
    apply map_eq. intros k. rewrite !lookup_omap.
    destruct (obj_bindings o !! k) as [p|] eqn:Hk.
    + destruct (Hnew k p) as (q & -> & _ & Hc); [now apply ptrs_in_order_lookup|].
      cbn. now rewrite Hc, (Hkeep1 k p Hk).
    + rewrite Hoth, lookup_empty; [reflexivity|].
      rewrite ptrs_in_order_keys, Hk. now intros [? ?].
  - unfold value_of. cbn [objs cells].
    rewrite !lookup_insert_ne, Ho by exact Hne.
    f_equal. apply AoR_eq; cbn [_bindings _cas obj_bindings obj_cas]; [|reflexivity].
    apply map_eq. intros k. rewrite !lookup_omap.
    destruct (obj_bindings o !! k) as [p|] eqn:Hk; [|reflexivity].
    cbn. now apply (Hkeep k).
  - eexists. cbn [objs cells]. split; [apply lookup_insert_eq|].
    cbn [obj_bindings]. split.
    + intros k q Hq. destruct (Hdst k q Hq) as (p & Hp & _ & ->). eauto.
    + intros k1 k2 q H1 H2. apply (Hinj' k1 k2 q); try assumption.
      * destruct (Hdst _ _ H1) as (p & Hp & _). apply ptrs_in_order_keys. eauto.
      * destruct (Hdst _ _ H2) as (p & Hp & _). apply ptrs_in_order_keys. eauto.
  - intros q Hq Hq'. apply Hptr' in Hq as [k Hk].
    destruct (Hdst k q Hk) as (_ & _ & Hfresh & _).
    unfold pointers_of in Hq'. cbn [objs] in Hq'.
    rewrite !lookup_insert_ne, Ho in Hq' by exact Hne.
    apply elem_of_map_img in Hq' as [k' Hk'].
    apply Hfresh. apply elem_of_dom. rewrite (Hkeep1 k' q Hk'). eauto.
  - cbn [cells]. apply set_eq. intros q.
    rewrite elem_of_union, elem_of_difference, Hptr'. split.
    + intros Hq. destruct (Hdom q Hq) as [Hin|(k & _ & Hk)]; [left|right; eauto].
      apply elem_of_dom in Hin. rewrite Hc1 in Hin.
      destruct (decide (q ∈ pointers_of m this)); [now destruct Hin|].
      split; [now apply elem_of_dom | assumption].
    + intros [[Hin Hnin]|[k Hk]].
      * apply elem_of_dom. rewrite Hold.
        -- rewrite Hc1, decide_False by exact Hnin. now apply elem_of_dom.
        -- apply elem_of_dom. rewrite Hc1, decide_False by exact Hnin.
           now apply elem_of_dom.
      * destruct (Hdst k q Hk) as (p & Hp & _ & Hc).
        apply elem_of_dom. rewrite Hc. eauto.
Qed.

Lemma AoR_assign_is_deep_witness :
  AoR_assign Samples.memory_two 2 2 = Some Samples.memory_two
  /\ exists m', AoR_assign Samples.memory_two 2 1 = Some m'
       /\ value_of m' 2 = value_of Samples.memory_two 1
       /\ value_of m' 1 = value_of Samples.memory_two 1
       /\ owns m' 2
       /\ pointers_of m' 2 ## pointers_of m' 1
       /\ dom (cells m')
          = (dom (cells Samples.memory_two) ∖ pointers_of Samples.memory_two 2)
            ∪ pointers_of m' 2.
Proof.
  destruct (AoR_assign_is_deep Samples.memory_two 2 1 owns_memory_two_2
              owns_memory_two_1) as [Hself Hdeep].
  split; [exact Hself|]. apply Hdeep; [discriminate|].
  intros q Hq Hq'.
  apply (elem_of_pointers_of Samples.memory_two 2 _ q eq_refl) in Hq as [k Hk].
  apply (elem_of_pointers_of Samples.memory_two 1 _ q eq_refl) in Hq' as [k' Hk'].
  cbn [obj_bindings] in Hk, Hk'.
  apply lookup_singleton_Some in Hk as [_ <-].
  apply lookup_insert_Some in Hk' as [[_ Hk']|[_ Hk']]; [discriminate|].
  now apply lookup_singleton_Some in Hk' as [_ ?].
Defined.

(* ===================================================================== *)
(** * 14. The thread dispatcher: further properties of the code          *)
(* ===================================================================== *)

Lemma submit_all_spec env subs : forall d,
  is_deadlocked env = false ->
  (forall rdata, (pjsip_rx_data_clone env rdata).1 = PJ_SUCCESS) ->
  (submit_all env d subs).2 = returns tt
  /\ q_items (event_q (submit_all env d subs).1.2)
     = q_items (event_q d) ++ map (queued env) subs
  /\ num_worker_threads (submit_all env d subs).1.2 = num_worker_threads d
  /\ q_deadlock_threshold (event_q (submit_all env d subs).1.2)
     = q_deadlock_threshold (event_q d).
Proof.
  induction subs as [|[rdata|cb] subs IH]; intros d Hdl Hclone.
  - cbn. now rewrite app_nil_r.
  - cbn [submit_all]. unfold threads_on_rx_msg. rewrite Hdl.
    pose proof (Hclone rdata) as Hst.
    destruct (pjsip_rx_data_clone env rdata) as [status clone] eqn:Hcl.
    cbn [fst snd] in Hst. subst status. cbn [Z.eqb PJ_SUCCESS negb].
    match goal with
    | |- context [submit_all env ?d1 subs] =>
        destruct (IH d1 Hdl Hclone) as (He & Hq & Hn & Ht);
        destruct (submit_all env d1 subs) as [[t' d''] e]
    end.
    cbn [fst snd] in *. split; [exact He|]. cbn [map queued]. unfold cloned at 1.
    rewrite Hcl, Hq, Hn, Ht.
    cbn [snd event_q eventq_push q_items q_deadlock_threshold num_worker_threads].
    now rewrite <- app_assoc.
  - cbn [submit_all add_callback_to_queue].
    match goal with
    | |- context [submit_all env ?d1 subs] =>
        destruct (IH d1 Hdl Hclone) as (He & Hq & Hn & Ht);
        destruct (submit_all env d1 subs) as [[t' d''] e]
    end.
    cbn [fst snd] in *. split; [exact He|]. cbn [map queued].
    rewrite Hq, Hn, Ht. cbn [event_q eventq_push q_items q_deadlock_threshold
                             num_worker_threads].
    now rewrite <- app_assoc.
Qed.

(** X12 -- the queue is filled in the order of arrival: without a
    deadlock and with every clone succeeding, a run of received messages
    and added callbacks never ends the process and appends to the queue
    one entry per submission, in order: for a message the clone carrying
    the trail of the message received, for a callback the callback.  The
    number of worker threads and the deadlock threshold are not
    touched. *)
Theorem submissions_queued_in_order (env : environment) (d : dispatcher)
    (subs : list submission) :
  is_deadlocked env = false ->
  (forall rdata, (pjsip_rx_data_clone env rdata).1 = PJ_SUCCESS) ->
  (submit_all env d subs).2 = returns tt
  /\ q_items (event_q (submit_all env d subs).1.2)
     = q_items (event_q d) ++ map (queued env) subs
  /\ (forall rdata, rdata_trail (cloned env rdata) = rdata_trail rdata)
  /\ num_worker_threads (submit_all env d subs).1.2 = num_worker_threads d
  /\ q_deadlock_threshold (event_q (submit_all env d subs).1.2)
     = q_deadlock_threshold (event_q d).
Proof.
  intros Hdl Hclone.
  destruct (submit_all_spec env subs d Hdl Hclone) as (He & Hq & Hn & Ht).
  repeat split; assumption.
Qed.

Lemma submissions_queued_in_order_witness :
  q_items (event_q (submit_all Samples.env_calm Samples.dispatcher_two_workers
                      [received Samples.rdata_invite; callback 7;
                       received Samples.rdata_ack]).1.2)
  = [MESSAGE {| me_rdata := Some Samples.rdata_invite |}; CALLBACK 7;
     MESSAGE {| me_rdata := Some Samples.rdata_ack |}].
Proof.
  exact (proj1 (proj2 (submissions_queued_in_order Samples.env_calm
           Samples.dispatcher_two_workers
           [received Samples.rdata_invite; callback 7; received Samples.rdata_ack]
           eq_refl (fun _ => eq_refl)))).
Defined.

Lemma worker_thread_app env d l1 : forall l2,
  (worker_thread env d l1).2 = returns 0 ->
  worker_thread env d (l1 ++ l2)
  = ((worker_thread env d l1).1 ++ (worker_thread env d l2).1,
     (worker_thread env d l2).2).
Proof.
  induction l1 as [|qe l1 IH]; intros l2 Hret.
  - cbn. now destruct (worker_thread env d l2).
  - cbn [app worker_thread] in *.
    destruct (worker_handle env d qe) as [t [u|]]; [|discriminate].
    destruct (worker_thread env d l1) as [t1 e1] eqn:H1. cbn [fst snd] in *.
    rewrite (IH l2 Hret). cbn [fst snd]. now rewrite app_assoc.
Qed.

Lemma worker_handle_survives env d qe :
  num_worker_threads d <> 1 \/ (forall r, processing_crashes env r = false) ->
  (worker_handle env d qe).2 = returns tt
  /\ omap work_of (worker_handle env d qe).1 = option_list (submission_of qe)
  /\ omap freed_by (worker_handle env d qe).1 = option_list (rdata_of qe).
Proof.
  intros Hsafe. destruct qe as [[[rdata|]]|cb]; cbn [worker_handle me_rdata];
    [|now repeat split..].
  assert (Hafter : forall me, omap work_of (after_message env me rdata) = []
                              /\ omap freed_by (after_message env me rdata) = [rdata]).
  { intros me. unfold after_message. now destruct (stop_watch_read env me). }
  assert (Hresp : omap work_of (crash_response rdata) = []
                  /\ omap freed_by (crash_response rdata) = []).
  { unfold crash_response.
    now destruct (rdata_msg_type rdata), (rdata_method rdata). }
  destruct (Hafter {| me_rdata := Some rdata |}) as [Ha1 Ha2].
  destruct Hresp as [Hr1 Hr2].
  destruct (processing_crashes env rdata) eqn:Hcrash.
  - destruct Hsafe as [Hmany|Hnone]; [|rewrite Hnone in Hcrash; discriminate].
    rewrite on_exception_actions.
    destruct (Z.eqb_spec (num_worker_threads d) 1); [contradiction|].
    cbn [fst snd]. split; [reflexivity|]. cbn [omap list_omap work_of freed_by].
    rewrite !omap_app, Ha1, Ha2, Hr1, Hr2. now split.
  - cbn [fst snd]. split; [reflexivity|]. cbn [omap list_omap work_of freed_by].
    rewrite Ha1, Ha2. now split.
Qed.

(** X13 -- a worker that is not alone, or one whose processing never
    crashes, handles everything popped and never ends the process: each
    message is processed and each callback run exactly once, in the order
    popped, every cloned message is released exactly once, in that order
    too, and the thread returns 0 when the queue is terminated. *)
Theorem worker_handles_all_in_order (env : environment) (d : dispatcher)
    (popped : list worker_thread_qe) :
  num_worker_threads d <> 1 \/ (forall r, processing_crashes env r = false) ->
  (worker_thread env d popped).2 = returns 0
  /\ omap work_of (worker_thread env d popped).1 = omap submission_of popped
  /\ omap freed_by (worker_thread env d popped).1 = omap rdata_of popped.
Proof.
  intros Hsafe. induction popped as [|qe popped IH]; [now repeat split|].
  cbn [worker_thread].
  destruct (worker_handle_survives env d qe Hsafe) as (He & Hw & Hf).
  destruct (worker_handle env d qe) as [t e]. cbn [fst snd] in *. subst e.
  destruct IH as (IHe & IHw & IHf).
  destruct (worker_thread env d popped) as [t' e']. cbn [fst snd] in *.
  split; [exact IHe|]. rewrite !omap_app, Hw, Hf, IHw, IHf.
  cbn [omap list_omap].
  split; [now destruct (submission_of qe) | now destruct (rdata_of qe)].
Qed.

Lemma worker_handles_all_in_order_witness :
  (worker_thread Samples.env_crashing Samples.dispatcher_two_workers
     [MESSAGE {| me_rdata := Some Samples.rdata_invite |}; CALLBACK 7;
      MESSAGE {| me_rdata := None |};
      MESSAGE {| me_rdata := Some Samples.rdata_ack |}]).2 = returns 0
  /\ omap work_of
       (worker_thread Samples.env_crashing Samples.dispatcher_two_workers
          [MESSAGE {| me_rdata := Some Samples.rdata_invite |}; CALLBACK 7;
           MESSAGE {| me_rdata := None |};
           MESSAGE {| me_rdata := Some Samples.rdata_ack |}]).1
     = [received Samples.rdata_invite; callback 7; received Samples.rdata_ack]
  /\ omap freed_by
       (worker_thread Samples.env_crashing Samples.dispatcher_two_workers
          [MESSAGE {| me_rdata := Some Samples.rdata_invite |}; CALLBACK 7;
           MESSAGE {| me_rdata := None |};
           MESSAGE {| me_rdata := Some Samples.rdata_ack |}]).1
     = [Samples.rdata_invite; Samples.rdata_ack].
Proof.
  apply (worker_handles_all_in_order Samples.env_crashing
           Samples.dispatcher_two_workers).
  left. vm_compute. discriminate.
Defined.

Lemma omap_submission_of_queued env subs :
  omap submission_of (map (queued env) subs) = map (work_for env) subs.
Proof.
  induction subs as [|[rdata|cb] subs IH]; [reflexivity|..];
    cbn [map omap list_omap queued submission_of work_for me_rdata fmap option_fmap
         option_map]; now rewrite IH.
Qed.

(** X14 -- from the receive hook to the worker: when the messages and
    callbacks submitted to an empty queue are all queued (no deadlock,
    every clone succeeds) and a single worker that does not end the
    process then drains the queue, it processes every message and runs
    every callback exactly once, in the order submitted, and each message
    processed carries the trail of the message that was received. *)
Theorem submitted_work_done_in_order (env : environment) (d : dispatcher)
    (subs : list submission) :
  q_items (event_q d) = [] ->
  is_deadlocked env = false ->
  (forall rdata, (pjsip_rx_data_clone env rdata).1 = PJ_SUCCESS) ->
  num_worker_threads d <> 1 \/ (forall r, processing_crashes env r = false) ->
  let d' := (submit_all env d subs).1.2 in
  let done := worker_thread env d' (q_items (event_q d')) in
  done.2 = returns 0
  /\ omap work_of done.1 = map (work_for env) subs
  /\ (forall rdata, received rdata ∈ subs ->
        exists r', received r' ∈ omap work_of done.1
                   /\ rdata_trail r' = rdata_trail rdata).
Proof.
  intros Hempty Hdl Hclone Hsafe. cbn zeta.
  destruct (submit_all_spec env subs d Hdl Hclone) as (_ & Hq & Hn & _).
  rewrite Hempty, app_nil_l in Hq. rewrite Hq.
  assert (Hsafe' : num_worker_threads (submit_all env d subs).1.2 <> 1
                   \/ (forall r, processing_crashes env r = false)).
  { destruct Hsafe as [H|H]; [left; congruence | now right]. }
  destruct (worker_handles_all_in_order env _ (map (queued env) subs) Hsafe')
    as (He & Hw & _).
  rewrite omap_submission_of_queued in Hw.
  split; [exact He|]. split; [exact Hw|].
  intros rdata Hin. exists (cloned env rdata). split; [|reflexivity].
  rewrite Hw. apply list_elem_of_fmap. now exists (received rdata).
Qed.

Lemma submitted_work_done_in_order_witness :
  let d' := (submit_all Samples.env_calm dispatcher_initial
               [received Samples.rdata_invite; callback 7]).1.2 in
  omap work_of (worker_thread Samples.env_calm d' (q_items (event_q d'))).1
  = [received Samples.rdata_invite; callback 7].
Proof.
  exact (proj1 (proj2 (submitted_work_done_in_order Samples.env_calm
           dispatcher_initial [received Samples.rdata_invite; callback 7]
           eq_refl eq_refl (fun _ => eq_refl) (or_intror (fun _ => eq_refl))))).
Defined.

(** X15 -- a single worker stops at the first message whose processing
    crashes: what was popped before it is handled as usual, the crashing
    message gets its response (if it is a request other than ACK) and the
    process exits; the message is not released and nothing popped after
    it is handled. *)
Theorem single_worker_stops_at_first_crash (env : environment) (d : dispatcher)
    (before after : list worker_thread_qe) (me : MessageEvent)
    (rdata : pjsip_rx_data) :
  num_worker_threads d = 1 ->
  (forall r, Some r ∈ map rdata_of before -> processing_crashes env r = false) ->
  me_rdata me = Some rdata ->
  processing_crashes env rdata = true ->
  worker_thread env d (before ++ MESSAGE me :: after)
  = ((worker_thread env d before).1
       ++ endpt_process_rx_data rdata :: crash_response rdata ++ [process_exit 1],
     process_ended)
  /\ omap work_of (worker_thread env d (before ++ MESSAGE me :: after)).1
     = omap submission_of before ++ [received rdata]
  /\ omap freed_by (worker_thread env d (before ++ MESSAGE me :: after)).1
     = omap rdata_of before.
Proof.
  intros Hone Hcalm Hme Hcrash.
  assert (Hbefore : (worker_thread env d before).2 = returns 0
            /\ omap work_of (worker_thread env d before).1 = omap submission_of before
            /\ omap freed_by (worker_thread env d before).1 = omap rdata_of before).
  { clear Hme Hcrash. induction before as [|qe before IH]; [now repeat split|].
    assert (Hqe : (worker_handle env d qe).2 = returns tt
              /\ omap work_of (worker_handle env d qe).1 = option_list (submission_of qe)
              /\ omap freed_by (worker_handle env d qe).1 = option_list (rdata_of qe)).
    { destruct qe as [[[r|]]|cb]; cbn [worker_handle me_rdata]; [|now repeat split..].
      rewrite (Hcalm r) by (cbn; apply elem_of_cons; now left).
      unfold after_message.
      now destruct (stop_watch_read env {| me_rdata := Some r |}). }
    destruct Hqe as (He & Hw & Hf).
    destruct IH as (IHe & IHw & IHf).
    { intros r Hr. apply Hcalm. cbn. apply elem_of_cons. now right. }
    cbn [worker_thread].
    destruct (worker_handle env d qe) as [t e]. cbn [fst snd] in *. subst e.
    destruct (worker_thread env d before) as [t' e']. cbn [fst snd] in *.
    split; [exact IHe|]. rewrite !omap_app, Hw, Hf, IHw, IHf. cbn [omap list_omap].
    split; [now destruct (submission_of qe) | now destruct (rdata_of qe)]. }
  destruct Hbefore as (He & Hw & Hf).
  assert (Hhead : worker_thread env d (MESSAGE me :: after)
            = (endpt_process_rx_data rdata :: crash_response rdata ++ [process_exit 1],
               process_ended)).
  { cbn [worker_thread worker_handle].
    now rewrite Hme, Hcrash, on_exception_actions, Hone. }
  rewrite (worker_thread_app _ _ _ _ He), Hhead. cbn [fst snd].
  split; [reflexivity|].
  assert (Hresp : omap work_of (crash_response rdata) = []
                  /\ omap freed_by (crash_response rdata) = []).
  { unfold crash_response.
    now destruct (rdata_msg_type rdata), (rdata_method rdata). }
  destruct Hresp as [Hr1 Hr2].
  rewrite !omap_app, Hw, Hf. cbn [omap list_omap work_of freed_by].
  rewrite !omap_app, Hr1, Hr2. cbn [omap list_omap work_of freed_by app].
  now rewrite app_nil_r.
Qed.

Lemma single_worker_stops_at_first_crash_witness :
  worker_thread Samples.env_crashing dispatcher_initial
    ([CALLBACK 3] ++ MESSAGE {| me_rdata := Some Samples.rdata_invite |}
                  :: [CALLBACK 7])
  = ([callback_run 3; endpt_process_rx_data Samples.rdata_invite;
      respond_stateless Samples.rdata_invite 500 (Some 600); process_exit 1],
     process_ended).
Proof.
  refine (proj1 (single_worker_stops_at_first_crash Samples.env_crashing
            dispatcher_initial [CALLBACK 3] [CALLBACK 7]
            {| me_rdata := Some Samples.rdata_invite |} Samples.rdata_invite
            eq_refl _ eq_refl eq_refl)).
  intros r Hr. cbn in Hr. apply list_elem_of_singleton in Hr. discriminate.
Defined.

(** The thread handles [start_worker_threads] stores in turns [ii] to
    [ii + n - 1], and the calls it makes for them. *)
Lemma start_loop_all_created (create : nat -> Z * nat) :
  forall (todo ii : nat) (v : thread_vector),
  (ii + todo <= length v)%nat ->
  (forall j, (ii <= j < ii + todo)%nat -> (create j).1 = PJ_SUCCESS) ->
  exists v',
    start_loop create ii todo v
    = (map (fun j => thread_create j PJ_SUCCESS) (seq ii todo), v', PJ_SUCCESS)
    /\ length v' = length v
    /\ forall j, v' !! j = if decide (ii <= j < ii + todo)%nat
                           then Some (Some (create j).2) else v !! j.
Proof.
  induction todo as [|todo IH]; intros ii v Hlen Hok.
  - exists v. split; [reflexivity|]. split; [reflexivity|].
    intros j. rewrite decide_False by lia. reflexivity.
  - cbn [start_loop seq map].
    pose proof (Hok ii ltac:(lia)) as Hii.
    destruct (create ii) as [status thread] eqn:Hc. cbn [fst] in Hii. subst status.
    cbn [Z.eqb PJ_SUCCESS negb].
    destruct (IH (S ii) (<[ii := Some thread]> v)) as (v' & -> & Hlen' & Hv').
    { rewrite length_insert. lia. }
    { intros j Hj. apply Hok. lia. }
    exists v'. split; [reflexivity|]. rewrite length_insert in Hlen'.
    split; [exact Hlen'|]. intros j. rewrite Hv'.
    destruct (decide (S ii <= j < S ii + todo)%nat).
    + rewrite decide_True by lia. reflexivity.
    + destruct (decide (j = ii)) as [->|Hne].
      * rewrite decide_True by lia. rewrite list_lookup_insert_eq by lia.
        now rewrite Hc.
      * rewrite decide_False by lia. now rewrite list_lookup_insert_ne.
Qed.

Lemma start_loop_first_failure (create : nat -> Z * nat) :
  forall (n ii todo : nat) (v : thread_vector),
  (n < todo)%nat -> (ii + todo <= length v)%nat ->
  (forall j, (ii <= j < ii + n)%nat -> (create j).1 = PJ_SUCCESS) ->
  (create (ii + n)%nat).1 <> PJ_SUCCESS ->
  exists v',
    start_loop create ii todo v
    = (map (fun j => thread_create j PJ_SUCCESS) (seq ii n)
         ++ [thread_create (ii + n)%nat (create (ii + n)%nat).1], v', 1)
    /\ length v' = length v
    /\ forall j, v' !! j = if decide (ii <= j < ii + n)%nat
                           then Some (Some (create j).2) else v !! j.
Proof.
  induction n as [|n IH]; intros ii todo v Hn Hlen Hok Hfail.
  - destruct todo as [|todo]; [lia|]. cbn [start_loop seq map app].
    rewrite Nat.add_0_r in *.
    destruct (create ii) as [status thread]. cbn [fst] in *.
    destruct (Z.eqb_spec status PJ_SUCCESS); [contradiction|]. cbn [negb].
    exists v. split; [reflexivity|]. split; [reflexivity|].
    intros j. rewrite decide_False by lia. reflexivity.
  - destruct todo as [|todo]; [lia|]. cbn [start_loop seq map app].
    pose proof (Hok ii ltac:(lia)) as Hii.
    destruct (create ii) as [status thread] eqn:Hc. cbn [fst] in Hii. subst status.
    cbn [Z.eqb PJ_SUCCESS negb].
    replace (ii + S n)%nat with (S ii + n)%nat in * by lia.
    destruct (IH (S ii) todo (<[ii := Some thread]> v)) as (v' & -> & Hlen' & Hv').
    { lia. }
    { rewrite length_insert. lia. }
    { intros j Hj. apply Hok. lia. }
    { exact Hfail. }
    exists v'. split; [reflexivity|]. rewrite length_insert in Hlen'.
    split; [exact Hlen'|]. intros j. rewrite Hv'.
    destruct (decide (S ii <= j < S ii + n)%nat).
    + rewrite decide_True by lia. reflexivity.
    + destruct (decide (j = ii)) as [->|Hne].
      * rewrite decide_True by lia. rewrite list_lookup_insert_eq by lia.
        now rewrite Hc.
      * rewrite decide_False by lia. now rewrite list_lookup_insert_ne.
Qed.

(** X16 -- [start_worker_threads] makes one [pj_thread_create] call per
    entry of the vector, in order, up to the first that fails.  When all
    succeed it returns [PJ_SUCCESS] and every entry holds the handle
    created for it.  When the call for entry [n] is the first to fail it
    returns 1 (not the status of the failure), makes no further call, and
    leaves the entries before [n] with their new handles and the entries
    from [n] on as they were. *)
Theorem start_worker_threads_until_failure (create : nat -> Z * nat)
    (v : thread_vector) :
  ((forall j, (j < length v)%nat -> (create j).1 = PJ_SUCCESS) ->
     start_worker_threads create v
     = (map (fun j => thread_create j PJ_SUCCESS) (seq 0 (length v)),
        map (fun j => Some (create j).2) (seq 0 (length v)),
        PJ_SUCCESS))
  /\ (forall n, (n < length v)%nat ->
        (forall j, (j < n)%nat -> (create j).1 = PJ_SUCCESS) ->
        (create n).1 <> PJ_SUCCESS ->
        start_worker_threads create v
        = (map (fun j => thread_create j PJ_SUCCESS) (seq 0 n)
             ++ [thread_create n (create n).1],
           map (fun j => Some (create j).2) (seq 0 n) ++ drop n v,
           1)).
Proof.
  unfold start_worker_threads. split.
  - intros Hok.
    destruct (start_loop_all_created create (length v) 0 v) as (v' & -> & Hlen & Hv').
    { lia. } { intros j Hj. apply Hok. lia. }
    f_equal. f_equal. apply list_eq. intros j. rewrite Hv'.
    destruct (decide (0 <= j < 0 + length v)%nat) as [Hj|Hj].
    + rewrite list_lookup_fmap, lookup_seq_lt by lia. reflexivity.
    + rewrite lookup_ge_None_2 by lia.
      symmetry. apply lookup_ge_None_2. rewrite length_map, length_seq. lia.
  - intros n Hn Hok Hfail.
    destruct (start_loop_first_failure create n 0 (length v) v)
      as (v' & -> & Hlen & Hv'); try lia; try assumption.
    { intros j Hj. apply Hok. lia. }
    cbn [Nat.add]. f_equal. f_equal. apply list_eq. intros j. rewrite Hv'.
    destruct (decide (0 <= j < 0 + n)%nat) as [Hj|Hj].
    + rewrite lookup_app_l by (rewrite length_map, length_seq; lia).
      rewrite list_lookup_fmap, lookup_seq_lt by lia. reflexivity.
    + rewrite lookup_app_r by (rewrite length_map, length_seq; lia).
      rewrite length_map, length_seq, lookup_drop. f_equal. lia.
Qed.

Lemma start_worker_threads_until_failure_witness :
  start_worker_threads Samples.create_ok [None; None; None]
  = ([thread_create 0 0; thread_create 1 0; thread_create 2 0],
     [Some 100%nat; Some 101%nat; Some 102%nat], PJ_SUCCESS)
  /\ start_worker_threads Samples.create_fails_at_2 [None; None; None; None]
     = ([thread_create 0 0; thread_create 1 0; thread_create 2 70007],
        [Some 100%nat; Some 101%nat; None; None], 1).
Proof.
  split.
  - refine (proj1 (start_worker_threads_until_failure Samples.create_ok
                     [None; None; None]) _).
    intros j _. reflexivity.
  - refine (proj2 (start_worker_threads_until_failure Samples.create_fails_at_2
                     [None; None; None; None]) 2%nat _ _ _).
    + cbn. lia.
    + intros j Hj. unfold Samples.create_fails_at_2.
      destruct (Nat.eqb_spec j 2); [lia | reflexivity].
    + vm_compute. discriminate.
Defined.

(** X17 -- [stop_worker_threads] terminates the queue, joins every entry
    of the vector in order and leaves the vector empty, so that a
    [start_worker_threads] after it creates no thread and returns
    [PJ_SUCCESS].  After a start that failed at entry [n] of a vector
    just sized to [size] entries, the joins are those of the [n] threads
    created followed by [size - n] joins of a null handle. *)
Theorem stop_worker_threads_joins_all (create : nat -> Z * nat) (v : thread_vector) :
  (stop_worker_threads v).1 = q_terminate :: map thread_join v
  /\ start_worker_threads create (stop_worker_threads v).2 = ([], [], PJ_SUCCESS)
  /\ (forall size n v0,
        resize_worker_threads [] size = Some v0 ->
        (0 <= n < size) ->
        (forall j, (j < Z.to_nat n)%nat -> (create j).1 = PJ_SUCCESS) ->
        (create (Z.to_nat n)).1 <> PJ_SUCCESS ->
        (stop_worker_threads (start_worker_threads create v0).1.2).1
        = q_terminate
          :: map (fun j => thread_join (Some (create j).2)) (seq 0 (Z.to_nat n))
          ++ replicate (Z.to_nat (size - n)) (thread_join None)).
Proof.
  split; [reflexivity|]. split; [reflexivity|].
  intros size n v0 Hres Hn Hok Hfail.
  unfold resize_worker_threads in Hres.
  destruct (Z.ltb_spec size 0); [discriminate|]. injection Hres as <-.
  change (resize (Z.to_nat size) None []) with (replicate (Z.to_nat size) (@None nat))
    || rewrite resize_nil.
  destruct (start_worker_threads_until_failure create
              (replicate (Z.to_nat size) None)) as [_ Hf].
  rewrite (Hf (Z.to_nat n)); try assumption.
  - cbn [fst snd stop_worker_threads]. f_equal.
    rewrite map_app, map_map. f_equal.
    rewrite drop_replicate, <- (fmap_replicate thread_join).
    f_equal. f_equal. lia.
  - rewrite length_replicate. lia.
Qed.

Lemma stop_worker_threads_joins_all_witness :
  (stop_worker_threads
     (start_worker_threads Samples.create_fails_at_2 [None; None; None; None]).1.2).1
  = [q_terminate; thread_join (Some 100%nat); thread_join (Some 101%nat);
     thread_join None; thread_join None].
Proof.
  refine (proj2 (proj2 (stop_worker_threads_joins_all Samples.create_fails_at_2 []))
            4 2 [None; None; None; None] eq_refl _ _ _).
  - lia.
  - intros j Hj. unfold Samples.create_fails_at_2.
    destruct (Nat.eqb_spec j 2); [|reflexivity].
    subst j. cbn in Hj. lia.
  - vm_compute. discriminate.
Defined.
